(** * A shallow embedding of the btc-algo-trader backtester

    The development follows the Python sources:
    - [src/strategy/base_strategy.py]: [Signal], [Trade], [Position] and the
      ledger kept by [BaseStrategy] ([execute_trade], [get_portfolio_value],
      [get_performance_metrics]);
    - [src/strategy/sma_crossover.py]: [SMACrossoverStrategy];
    - [src/backtest/engine.py]: the replay loop of [BacktestEngine.run_backtest]
      and the two metrics [_calculate_max_drawdown], [_calculate_sharpe_ratio].

    Numbers.  The program computes with binary64 floats.  Prices, quantities
    and cash are modelled by exact rationals [Q]; equalities between computed
    amounts are therefore stated with [==] ([Qeq]).  The two places where the
    program meets a non-finite float are modelled explicitly: a rolling mean
    that is not yet defined is [None], and the quotient computed by the
    drawdown is a value of [fval] (a finite rational, an infinity or NaN).
    The Sharpe ratio is modelled twice: over [R], with [None] standing for
    NaN, for statements about its value, and over an abstract float type
    ([FloatSharpe]) for its guard, which tests the standard deviation that
    the program has computed. *)

From Stdlib Require Import Reals QArith Qminmax Psatz Lia ZArith.
From Stdlib Require Import List String Bool Sorted Permutation.
Import ListNotations.

Open Scope Q_scope.

(** ** Python dictionaries

    A [dict] keeps its keys in insertion order; assigning to a key that is
    present replaces the value in place, assigning to a new key appends it. *)

Module Dict.

Section WithValue.
Context {V : Type}.

Definition t := list (string * V).

Fixpoint get (k : string) (d : t) : option V :=
  match d with
  | [] => None
  | (k', v) :: d' => if String.eqb k k' then Some v else get k d'
  end.

Definition mem (k : string) (d : t) : bool :=
  match get k d with Some _ => true | None => false end.

Fixpoint set (k : string) (v : V) (d : t) : t :=
  match d with
  | [] => [(k, v)]
  | (k', v') :: d' =>
      if String.eqb k k' then (k', v) :: d' else (k', v') :: set k v d'
  end.

(** [del d[k]]: the entry of [k] goes, the others keep their order. *)
Fixpoint del (k : string) (d : t) : t :=
  match d with
  | [] => []
  | (k', v') :: d' =>
      if String.eqb k k' then del k d' else (k', v') :: del k d'
  end.

Definition keys (d : t) : list string := map fst d.
Definition values (d : t) : list V := map snd d.

End WithValue.

Arguments t : clear implicits.

End Dict.

(** ** Data model ([base_strategy.py]) *)

Inductive Signal : Type := BUY | SELL | HOLD.

Definition Signal_value (s : Signal) : string :=
  match s with
  | BUY => "buy"
  | SELL => "sell"
  | HOLD => "hold"
  end.

Definition Signal_eqb (a b : Signal) : bool :=
  match a, b with
  | BUY, BUY | SELL, SELL | HOLD, HOLD => true
  | _, _ => false
  end.

(** Timestamps only travel through the program; they are integers here. *)
Definition datetime := Z.

Record Trade : Type := mkTrade {
  trade_timestamp : datetime;
  trade_signal : Signal;
  trade_price : Q;
  trade_quantity : Q;
  trade_reason : string
}.

Record Position : Type := mkPosition {
  symbol : string;
  quantity : Q;
  entry_price : Q;
  entry_time : datetime;
  current_price : Q;
  unrealized_pnl : Q
}.

(** [Position.update_price] *)
Definition update_price (p : Position) (price : Q) : Position :=
  {| symbol := symbol p;
     quantity := quantity p;
     entry_price := entry_price p;
     entry_time := entry_time p;
     current_price := price;
     unrealized_pnl := (price - entry_price p) * quantity p |}.

(** The mutable fields of a [BaseStrategy] instance. *)
Record Ledger : Type := mkLedger {
  initial_balance : Q;
  current_balance : Q;
  positions : Dict.t Position;
  trades : list Trade
}.

(** [BaseStrategy.__init__] *)
Definition new_ledger (balance : Q) : Ledger :=
  {| initial_balance := balance;
     current_balance := balance;
     positions := [];
     trades := [] |}.

Definition set_balance (st : Ledger) (b : Q) : Ledger :=
  {| initial_balance := initial_balance st;
     current_balance := b;
     positions := positions st;
     trades := trades st |}.

Definition set_positions (st : Ledger) (ps : Dict.t Position) : Ledger :=
  {| initial_balance := initial_balance st;
     current_balance := current_balance st;
     positions := ps;
     trades := trades st |}.

Definition append_trade (st : Ledger) (t : Trade) : Ledger :=
  {| initial_balance := initial_balance st;
     current_balance := current_balance st;
     positions := positions st;
     trades := trades st ++ [t] |}.

(** One OHLCV row of the data frame. *)
Record Bar : Type := mkBar {
  timestamp : datetime;
  open : Q;
  high : Q;
  low : Q;
  close : Q;
  volume : Q
}.

(** The two abstract methods of [BaseStrategy].  Both may read the instance,
    so the ledger is an argument. *)
Record Strategy : Type := mkStrategy {
  generate_signal : Ledger -> list Bar -> Signal;
  calculate_position_size : Ledger -> Signal -> Q -> Q -> Q
}.

(** Python's [min(a, b)]: [b] when [b < a], else [a]. *)
Definition py_min (a b : Q) : Q := if Qle_bool a b then a else b.

Definition with_quantity (p : Position) (q : Q) : Position :=
  {| symbol := symbol p;
     quantity := q;
     entry_price := entry_price p;
     entry_time := entry_time p;
     current_price := current_price p;
     unrealized_pnl := unrealized_pnl p |}.

Definition with_trade_quantity (t : Trade) (q : Q) : Trade :=
  {| trade_timestamp := trade_timestamp t;
     trade_signal := trade_signal t;
     trade_price := trade_price t;
     trade_quantity := q;
     trade_reason := trade_reason t |}.

Section Ledger_operations.

Variable S : Strategy.

(** The [BUY] branch of [execute_trade], lines 92-117.  The average price
    divides by [total_quantity], which is positive whenever the held and the
    bought quantities are (see [ledger_inv]). *)
Definition execute_buy (st : Ledger) (price qty : Q) (ts : datetime)
    (sym : string) : Ledger :=
  let cost := price * qty in
  if Qle_bool cost (current_balance st) then
    let st1 := set_balance st (current_balance st - cost) in
    match Dict.get sym (positions st1) with
    | Some existing =>
        let total_cost := entry_price existing * quantity existing + cost in
        let total_quantity := quantity existing + qty in
        let avg_price := total_cost / total_quantity in
        set_positions st1
          (Dict.set sym
             (mkPosition sym total_quantity avg_price (entry_time existing)
                price 0)
             (positions st1))
    | None =>
        set_positions st1
          (Dict.set sym (mkPosition sym qty price ts price 0)
             (positions st1))
    end
  else st.

(** The [SELL] branch, lines 119-130.  The position object is updated in
    place, then deleted when nothing is left; the trade's quantity becomes
    the quantity really sold. *)
Definition execute_sell (st : Ledger) (trade : Trade) (price qty : Q)
    (sym : string) : Ledger * Trade :=
  match Dict.get sym (positions st) with
  | Some position =>
      let sell_quantity := py_min qty (quantity position) in
      let revenue := price * sell_quantity in
      let st1 := set_balance st (current_balance st + revenue) in
      let position' :=
        with_quantity position (quantity position - sell_quantity) in
      let ps :=
        if Qle_bool (quantity position') 0
        then Dict.del sym (positions st1)
        else Dict.set sym position' (positions st1) in
      (set_positions st1 ps, with_trade_quantity trade sell_quantity)
  | None => (st, trade)
  end.

(** [BaseStrategy.execute_trade]: the two early returns, then the
    [if] / [elif] on the signal, then the common [append] and [return]. *)
Definition execute_trade (st : Ledger) (signal : Signal) (price : Q)
    (ts : datetime) (sym : string) : Ledger * option Trade :=
  if Signal_eqb signal HOLD then (st, None)
  else
    let qty :=
      calculate_position_size S st signal price (current_balance st) in
    if Qle_bool qty 0 then (st, None)
    else
      let trade :=
        mkTrade ts signal price qty
          (String.append "Signal: " (Signal_value signal)) in
      let '(st', trade') :=
        if Signal_eqb signal BUY then
          (execute_buy st price qty ts sym, trade)
        else if Signal_eqb signal SELL then
          execute_sell st trade price qty sym
        else (st, trade) in
      (append_trade st' trade', Some trade').

(** [BaseStrategy.get_portfolio_value]: the loop over [positions.items()]
    refreshes every priced position and accumulates its value; a position
    whose symbol has no price is skipped. *)
Fixpoint value_loop (ps : Dict.t Position) (current_prices : Dict.t Q)
    (acc : Q) : Dict.t Position * Q :=
  match ps with
  | [] => ([], acc)
  | (sym, position) :: ps' =>
      match Dict.get sym current_prices with
      | Some price =>
          let position' := update_price position price in
          let '(ps'', v) :=
            value_loop ps' current_prices (acc + quantity position' * price)
          in ((sym, position') :: ps'', v)
      | None =>
          let '(ps'', v) := value_loop ps' current_prices acc in
          ((sym, position) :: ps'', v)
      end
  end.

Definition get_portfolio_value (st : Ledger) (current_prices : Dict.t Q)
    : Ledger * Q :=
  let '(ps, v) :=
    value_loop (positions st) current_prices (current_balance st) in
  (set_positions st ps, v).

End Ledger_operations.

(** ** The SMA crossover strategy ([sma_crossover.py]) *)

Definition sum_Q (xs : list Q) : Q := fold_left Qplus xs 0.

(** Entry [i] of [xs.rolling(window=w).mean()]: undefined (NaN, here [None])
    until [w] observations are available, then the mean of the last [w]. *)
Definition rolling_mean (w : nat) (xs : list Q) (i : nat) : option Q :=
  if (w =? 0)%nat then None
  else if (i + 1 <? w)%nat then None
  else if (List.length xs <=? i)%nat then None
  else Some (sum_Q (firstn w (skipn (i + 1 - w) xs)) / inject_Z (Z.of_nat w)).

(** Float comparisons: anything compared with NaN is false. *)
Definition opt_le (a b : option Q) : bool :=
  match a, b with
  | Some x, Some y => Qle_bool x y
  | _, _ => false
  end.

Definition opt_lt (a b : option Q) : bool :=
  match a, b with
  | Some x, Some y => negb (Qle_bool y x)
  | _, _ => false
  end.

Section SMACrossover.

Variables short_window long_window : nat.
Variable position_size_pct : Q.

(** [SMACrossoverStrategy.generate_signal].  On an empty frame with
    [long_window = 0] the source fails at [iloc[-1]]; the engine only ever
    passes a non-empty prefix, and the model answers [HOLD] there. *)
Definition sma_generate_signal (ohlcv_data : list Bar) : Signal :=
  let n := List.length ohlcv_data in
  if (n <? long_window)%nat then HOLD
  else
    match n with
    | O => HOLD
    | _ =>
        let closes := map close ohlcv_data in
        let short_sma := rolling_mean short_window closes in
        let long_sma := rolling_mean long_window closes in
        let current_short := short_sma (n - 1)%nat in
        let current_long := long_sma (n - 1)%nat in
        let prev_short :=
          if (1 <? n)%nat then short_sma (n - 2)%nat else current_short in
        let prev_long :=
          if (1 <? n)%nat then long_sma (n - 2)%nat else current_long in
        if opt_le prev_short prev_long && opt_lt current_long current_short
        then BUY
        else if opt_le prev_long prev_short
                && opt_lt current_short current_long
        then SELL
        else HOLD
    end.

(** [SMACrossoverStrategy.calculate_position_size]; the symbol looked up
    for a sell is the literal of line 65.  The size of a buy divides by the
    price, which is a close of the data frame and is taken to be nonzero. *)
Definition sma_calculate_position_size (st : Ledger) (signal : Signal)
    (current_price available_balance : Q) : Q :=
  match signal with
  | BUY =>
      let risk_amount := available_balance * position_size_pct in
      risk_amount / current_price
  | SELL =>
      match Dict.get "BTC/USDT"%string (positions st) with
      | Some p => quantity p
      | None => 0
      end
  | HOLD => 0
  end.

Definition SMACrossoverStrategy : Strategy :=
  {| generate_signal := fun _ data => sma_generate_signal data;
     calculate_position_size := sma_calculate_position_size |}.

End SMACrossover.

(** ** Metrics ([engine.py], lines 116-119) *)

(** The value of a float quotient: finite, an infinity, or NaN. *)
Inductive fval : Type :=
| Fin (q : Q)
| PInf
| NInf
| NaN.

(** Division of two finite numbers as numpy performs it. *)
Definition fdiv (a b : Q) : fval :=
  if Qeq_bool b 0 then
    if Qeq_bool a 0 then NaN
    else if Qle_bool 0 a then PInf else NInf
  else Fin (a / b).

(** [a <= b] on non-NaN values. *)
Definition fval_leb (a b : fval) : bool :=
  match a, b with
  | NInf, _ => true
  | _, PInf => true
  | Fin x, Fin y => Qle_bool x y
  | _, _ => false
  end.

(** [Series.min()] skips NaN and answers NaN when nothing is left. *)
Definition fval_min (a b : fval) : fval :=
  match a, b with
  | NaN, _ => b
  | _, NaN => a
  | _, _ => if fval_leb a b then a else b
  end.

Definition series_min (xs : list fval) : fval := fold_left fval_min xs NaN.

(** The larger of two numbers. *)
Definition py_max (a b : Q) : Q := if Qle_bool a b then b else a.

(** [Series.expanding().max()]: the maximum seen so far is carried along. *)
Fixpoint expanding_max_from (m : Q) (xs : list Q) : list Q :=
  match xs with
  | [] => []
  | x :: xs' =>
      let m' := py_max m x in
      m' :: expanding_max_from m' xs'
  end.

Definition expanding_max (xs : list Q) : list Q :=
  match xs with
  | [] => []
  | x :: xs' => x :: expanding_max_from x xs'
  end.

Fixpoint drawdown_series (values maxima : list Q) : list fval :=
  match values, maxima with
  | v :: values', m :: maxima' =>
      fdiv (v - m) m :: drawdown_series values' maxima'
  | _, _ => []
  end.

(** [BacktestEngine._calculate_max_drawdown] *)
Definition _calculate_max_drawdown (portfolio_series : list Q) : fval :=
  let rolling_max := expanding_max portfolio_series in
  let drawdown := drawdown_series portfolio_series rolling_max in
  series_min drawdown.

(** ** Performance metrics ([base_strategy.py], lines 145-167) *)

Record Metrics : Type := mkMetrics {
  m_initial_balance : Q;
  m_current_balance : Q;
  m_portfolio_value : Q;
  m_total_return : Q;
  m_total_trades : nat;
  m_win_rate : Q;
  m_unrealized_pnl : Q
}.

(** [_is_winning_trade] is the placeholder [return True]. *)
Definition _is_winning_trade (t : Trade) (current_prices : Dict.t Q) : bool :=
  true.

(** What stops a run. *)
Inductive Exception : Type :=
| ValueError
| ZeroDivisionError.

(** [BaseStrategy.get_performance_metrics].  [total_return] divides by the
    initial balance: with a zero initial balance Python raises
    [ZeroDivisionError] (the quotient is not a finite number when the
    operands are numpy floats); the model stops there in both cases. *)
Definition get_performance_metrics (st : Ledger) (current_prices : Dict.t Q)
    : Exception + Ledger * Metrics :=
  let '(st', portfolio_value) := get_portfolio_value st current_prices in
  if Qeq_bool (initial_balance st') 0 then inl ZeroDivisionError
  else
    let total_return :=
      (portfolio_value - initial_balance st') / initial_balance st' in
    let winning_trades :=
      filter (fun t => _is_winning_trade t current_prices) (trades st') in
    let total_trades := List.length (trades st') in
    let win_rate :=
      if (0 <? total_trades)%nat
      then inject_Z (Z.of_nat (List.length winning_trades))
           / inject_Z (Z.of_nat total_trades)
      else 0 in
    inr (st',
         {| m_initial_balance := initial_balance st';
            m_current_balance := current_balance st';
            m_portfolio_value := portfolio_value;
            m_total_return := total_return;
            m_total_trades := total_trades;
            m_win_rate := win_rate;
            m_unrealized_pnl :=
              sum_Q (map unrealized_pnl (Dict.values (positions st'))) |}).

(** ** The replay loop ([engine.py], lines 47-97) *)

(** What the loop carries from bar to bar: the strategy's ledger and the two
    lists it appends to.  [ls_commissions] is a ghost log of the amounts
    debited at line 71; the program does not keep it. *)
Record LoopState : Type := mkLoopState {
  ls_ledger : Ledger;
  ls_portfolio_values : list Q;
  ls_signals : list string;
  ls_commissions : list Q
}.

Definition init_loop (st : Ledger) : LoopState :=
  {| ls_ledger := st;
     ls_portfolio_values := [];
     ls_signals := [];
     ls_commissions := [] |}.

Section Engine.

Variable S : Strategy.
Variable commission_rate : Q.
Variable sym : string.

(** Lines 60-71: the trade and its commission. *)
Definition trade_step (st : Ledger) (signal : Signal) (row : Bar)
    : Ledger * list Q :=
  match signal with
  | HOLD => (st, [])
  | _ =>
      match execute_trade S st signal (close row) (timestamp row) sym with
      | (st', Some trade) =>
          let commission :=
            trade_price trade * trade_quantity trade * commission_rate in
          (set_balance st' (current_balance st' - commission), [commission])
      | (st', None) => (st', [])
      end
  end.

(** The body of the [for] loop, lines 50-78. *)
Definition bar_step (current_data : list Bar) (row : Bar) (ls : LoopState)
    : LoopState :=
  let current_price := close row in
  let signal := generate_signal S (ls_ledger ls) current_data in
  let '(st1, debited) := trade_step (ls_ledger ls) signal row in
  let current_prices := [(sym, current_price)] in
  let '(st2, portfolio_value) := get_portfolio_value st1 current_prices in
  {| ls_ledger := st2;
     ls_portfolio_values := ls_portfolio_values ls ++ [portfolio_value];
     ls_signals := ls_signals ls ++ [Signal_value signal];
     ls_commissions := ls_commissions ls ++ debited |}.

(** [seen] holds the rows before the current one, so that [seen ++ [row]]
    is [ohlcv_data.iloc[:i+1]]. *)
Fixpoint replay (seen rest : list Bar) (ls : LoopState) : LoopState :=
  match rest with
  | [] => ls
  | row :: rest' =>
      let current_data := seen ++ [row] in
      replay current_data rest' (bar_step current_data row ls)
  end.

(** The entries of the result dictionary that the ledger and the loop
    determine.  [r_strategy] is the strategy object after the run and
    [r_commissions] the ghost log. *)
Record BacktestResult : Type := mkBacktestResult {
  r_metrics : Metrics;
  r_max_drawdown : fval;
  r_portfolio_values : list Q;
  r_signals : list string;
  r_total_commission_paid : Q;
  r_strategy : Ledger;
  r_commissions : list Q
}.

(** [BacktestEngine.run_backtest] once the data frame is fetched: the
    [ValueError] of line 41 on an empty frame, the loop, the final metrics at
    the last close, and the result dictionary. *)
Definition run_backtest (st : Ledger) (ohlcv_data : list Bar)
    : Exception + BacktestResult :=
  match ohlcv_data with
  | [] => inl ValueError
  | _ =>
      let ls := replay [] ohlcv_data (init_loop st) in
      let last_close := last (map close ohlcv_data) 0 in
      match get_performance_metrics (ls_ledger ls) [(sym, last_close)] with
      | inl e => inl e
      | inr (st', final_metrics) =>
          inr {| r_metrics := final_metrics;
                 r_max_drawdown :=
                   _calculate_max_drawdown (ls_portfolio_values ls);
                 r_portfolio_values := ls_portfolio_values ls;
                 r_signals := ls_signals ls;
                 r_total_commission_paid :=
                   inject_Z (Z.of_nat (List.length (trades st')))
                   * commission_rate;
                 r_strategy := st';
                 r_commissions := ls_commissions ls |}
      end
  end.

End Engine.

(** ** Sequences of calls and the ledger invariant *)

(** The arguments of one call of [execute_trade]. *)
Record Call : Type := mkCall {
  call_signal : Signal;
  call_price : Q;
  call_timestamp : datetime;
  call_symbol : string
}.

Definition execute_call (S : Strategy) (st : Ledger) (c : Call) : Ledger :=
  fst (execute_trade S st (call_signal c) (call_price c) (call_timestamp c)
         (call_symbol c)).

Definition execute_trades (S : Strategy) (st : Ledger) (calls : list Call)
    : Ledger :=
  fold_left (execute_call S) calls st.

(** One position per symbol, each with a positive quantity. *)
Definition positive_quantity (kv : string * Position) : Prop :=
  0 < quantity (snd kv).

Definition ledger_inv (st : Ledger) : Prop :=
  NoDup (Dict.keys (positions st)) /\ Forall positive_quantity (positions st).

(** The [Trade] built at lines 84-90, before either branch runs. *)
Definition requested_trade (S : Strategy) (st : Ledger) (signal : Signal)
    (price : Q) (ts : datetime) : Trade :=
  mkTrade ts signal price
    (calculate_position_size S st signal price (current_balance st))
    (String.append "Signal: " (Signal_value signal)).

(** A data frame given by its closing prices, stamped 0, 1, 2, ... *)
Definition bars_of_closes (closes : list Q) : list Bar :=
  map (fun '(i, c) => mkBar (Z.of_nat i) c c c c 0)
    (combine (seq 0 (List.length closes)) closes).

(** ** Valuation, stated without the loop *)

(** What a position adds to the value computed by [get_portfolio_value]. *)
Definition priced_value (current_prices : Dict.t Q) (kv : string * Position)
    : Q :=
  match Dict.get (fst kv) current_prices with
  | Some price => quantity (snd kv) * price
  | None => 0
  end.

(** What [get_portfolio_value] leaves in the dictionary for an entry. *)
Definition refresh (current_prices : Dict.t Q) (kv : string * Position)
    : string * Position :=
  match Dict.get (fst kv) current_prices with
  | Some price => (fst kv, update_price (snd kv) price)
  | None => kv
  end.

(** The valuation in the words of the specification: a position without a
    price is counted at the [current_price] it still carries. *)
Definition spec_position_value (current_prices : Dict.t Q)
    (kv : string * Position) : Q :=
  match Dict.get (fst kv) current_prices with
  | Some price => quantity (snd kv) * price
  | None => quantity (snd kv) * current_price (snd kv)
  end.

Definition spec_portfolio_value (st : Ledger) (current_prices : Dict.t Q) : Q :=
  current_balance st
  + sum_Q (map (spec_position_value current_prices) (positions st)).

(** ** Commission, stated without the loop *)

Definition notional (t : Trade) : Q := trade_price t * trade_quantity t.

(** The amount debited at lines 70-71 for a returned trade. *)
Definition commission_of (commission_rate : Q) (t : Trade) : Q :=
  trade_price t * trade_quantity t * commission_rate.

(** ** The loop, bar by bar *)

(** The value appended for [row] when the ledger before it is [st]. *)
Definition value_at (S : Strategy) (commission_rate : Q) (sym : string)
    (st : Ledger) (current_data : list Bar) (row : Bar) : Q :=
  snd (get_portfolio_value
         (fst (trade_step S commission_rate sym st
                 (generate_signal S st current_data) row))
         [(sym, close row)]).

(** ** Drawdown, stated without the scan *)

(** The maximum of the prefix [values[0..t]]. *)
Definition running_max (values : list Q) (t : nat) : Q :=
  match firstn (Datatypes.S t) values with
  | [] => 0
  | x :: xs => fold_left py_max xs x
  end.

(** The drawdown at [t], where the running maximum is not zero. *)
Definition drawdown_at (values : list Q) (t : nat) : Q :=
  (nth t values 0 - running_max values t) / running_max values t.

(** ** Sharpe ratio ([engine.py], lines 121-126)

    Over the reals; [None] is NaN. *)

Module Sharpe.

Local Open Scope R_scope.

Definition sum_R (xs : list R) : R := fold_right Rplus 0 xs.

(** [Series.mean()] *)
Definition mean (xs : list R) : option R :=
  match xs with
  | [] => None
  | _ => Some (sum_R xs / INR (List.length xs))
  end.

(** [Series.std()]: the sample standard deviation, with [n - 1] in the
    denominator; NaN when there are fewer than two observations. *)
Definition std (xs : list R) : option R :=
  match xs with
  | [] | [_] => None
  | _ =>
      let m := sum_R xs / INR (List.length xs) in
      Some (sqrt (sum_R (map (fun x => (x - m) * (x - m)) xs)
                  / (INR (List.length xs) - 1)))
  end.

(** [BacktestEngine._calculate_sharpe_ratio].  When [std] is NaN the test
    [returns.std() == 0] is false and the quotient is NaN. *)
Definition _calculate_sharpe_ratio (returns : list R) (risk_free_rate : R)
    : option R :=
  if (List.length returns =? 0)%nat then Some 0
  else
    match std returns with
    | Some s =>
        if Req_dec_T s 0 then Some 0
        else
          let excess_returns :=
            map (fun r => r - risk_free_rate / 252) returns in
          match mean excess_returns with
          | Some m => Some (m / s * sqrt 252)
          | None => None
          end
    | None => None
    end.

(** The call of line 88, with the default [risk_free_rate=0.02]. *)
Definition sharpe_ratio (returns : list R) : option R :=
  _calculate_sharpe_ratio returns (2 / 100).

End Sharpe.

(** ** Further vocabulary for the ledger *)

(** A trade as [execute_trade] records them. *)
Definition recorded_trade (t : Trade) : Prop :=
  0 < trade_quantity t /\ trade_signal t <> HOLD.

(** ** Historical data ([market_data.py], lines 88-100)

    What [MarketDataProvider.fetch_historical_data] does with the frames
    [all_data] that its download loop has collected: concatenate, keep the
    first row of every timestamp, sort by timestamp, keep the rows of the
    requested range.  The download itself is not modelled. *)

(** [~index.duplicated(keep='first')]: a row goes when its timestamp has
    been seen on an earlier row. *)
Fixpoint drop_duplicated (seen : list datetime) (rows : list Bar)
    : list Bar :=
  match rows with
  | [] => []
  | row :: rows' =>
      if existsb (Z.eqb (timestamp row)) seen
      then drop_duplicated seen rows'
      else row :: drop_duplicated (timestamp row :: seen) rows'
  end.

(** [sort_index]: the timestamps are distinct when it is called, so the
    order of the result does not depend on the sorting algorithm; an
    insertion sort stands for it. *)
Fixpoint insert_row (row : Bar) (sorted : list Bar) : list Bar :=
  match sorted with
  | [] => [row]
  | x :: xs =>
      if (timestamp row <=? timestamp x)%Z then row :: x :: xs
      else x :: insert_row row xs
  end.

Definition sort_index (rows : list Bar) : list Bar :=
  fold_right insert_row [] rows.

Definition in_date_range (start_date end_date : datetime) (row : Bar) : bool :=
  (start_date <=? timestamp row)%Z && (timestamp row <=? end_date)%Z.

Definition combine_historical_data (all_data : list (list Bar))
    (start_date end_date : datetime) : list Bar :=
  match all_data with
  | [] => []
  | _ =>
      let combined_df := List.concat all_data in
      let combined_df := drop_duplicated [] combined_df in
      let combined_df := sort_index combined_df in
      filter (in_date_range start_date end_date) combined_df
  end.

(** [r] is the first row of [rows] with its timestamp. *)
Definition first_with_timestamp (rows : list Bar) (r : Bar) : Prop :=
  exists before after,
    rows = before ++ r :: after
    /\ ~ In (timestamp r) (map timestamp before).

Definition earlier (a b : Bar) : Prop := (timestamp a < timestamp b)%Z.

Definition not_later (a b : Bar) : Prop := (timestamp a <= timestamp b)%Z.

(** ** Indicators ([base_strategy.py], lines 63-67; [sma_crossover.py],
    lines 30-35) *)

(** A series of numbers, [None] where pandas has NaN. *)
Definition Series : Type := list (option Q).

(** [BaseStrategy.add_indicator] and [BaseStrategy.get_indicator], on the
    dictionary [self.indicators]. *)
Definition add_indicator (indicators : Dict.t Series) (name : string)
    (values : Series) : Dict.t Series :=
  Dict.set name values indicators.

Definition get_indicator (indicators : Dict.t Series) (name : string)
    : option Series :=
  Dict.get name indicators.

(** [xs.rolling(window=w).mean()] as a whole series. *)
Definition rolling_mean_series (w : nat) (xs : list Q) : Series :=
  map (rolling_mean w xs) (seq 0 (List.length xs)).

(** What [SMACrossoverStrategy.generate_signal] does to [self.indicators]:
    nothing below the long window, else the two averages are stored. *)
Definition sma_store_indicators (short_window long_window : nat)
    (indicators : Dict.t Series) (ohlcv_data : list Bar) : Dict.t Series :=
  if (List.length ohlcv_data <? long_window)%nat then indicators
  else
    let short_sma :=
      rolling_mean_series short_window (map close ohlcv_data) in
    let long_sma :=
      rolling_mean_series long_window (map close ohlcv_data) in
    add_indicator (add_indicator indicators "short_sma" short_sma)
      "long_sma" long_sma.

(** ** Sharpe ratio over the machine's floats

    [_calculate_sharpe_ratio] once more, this time without reading the
    floats as real numbers: the float type, the constants, the arithmetic
    and the two pandas reductions are taken as they come, so that
    [returns.std() == 0] is the test the program performs on the value it
    has computed. *)

Module FloatSharpe.

(** What the function uses of binary64 and of pandas. *)
Record Floats : Type := mkFloats {
  float : Type;
  zero : float;                              (* 0.0 *)
  default_risk_free_rate : float;            (* 0.02 *)
  trading_days : float;                      (* 252 *)
  one_half : float;                          (* 0.5 *)
  sub : float -> float -> float;             (* x - y *)
  div : float -> float -> float;             (* x / y *)
  mul : float -> float -> float;             (* x * y *)
  pow : float -> float -> float;             (* x ** y *)
  eqb : float -> float -> bool;              (* x == y *)
  series_mean : list float -> float;         (* Series.mean() *)
  series_std : list float -> float           (* Series.std() *)
}.

Section WithFloats.

Variable fl : Floats.

(** [BacktestEngine._calculate_sharpe_ratio]; the [or] does not evaluate
    [returns.std()] on an empty series. *)
Definition _calculate_sharpe_ratio (returns : list (float fl))
    (risk_free_rate : float fl) : float fl :=
  if (List.length returns =? 0)%nat then zero fl
  else if eqb fl (series_std fl returns) (zero fl) then zero fl
  else
    let excess_returns :=
      map (fun r => sub fl r (div fl risk_free_rate (trading_days fl)))
        returns in
    mul fl
      (div fl (series_mean fl excess_returns) (series_std fl returns))
      (pow fl (trading_days fl) (one_half fl)).

(** The call of line 88, with the default [risk_free_rate=0.02]. *)
Definition sharpe_ratio (returns : list (float fl)) : float fl :=
  _calculate_sharpe_ratio returns (default_risk_free_rate fl).

End WithFloats.

(** The floats read as real numbers, [None] being NaN, with the reductions
    of [Sharpe]. *)
Definition lift2 (f : R -> R -> R) (a b : option R) : option R :=
  match a, b with
  | Some x, Some y => Some (f x y)
  | _, _ => None
  end.

Fixpoint collect (xs : list (option R)) : option (list R) :=
  match xs with
  | [] => Some []
  | Some x :: xs' =>
      match collect xs' with
      | Some l => Some (x :: l)
      | None => None
      end
  | None :: _ => None
  end.

Definition real_floats : Floats :=
  {| float := option R;
     zero := Some 0%R;
     default_risk_free_rate := Some (2 / 100)%R;
     trading_days := Some 252%R;
     one_half := Some (1 / 2)%R;
     sub := lift2 Rminus;
     div := lift2 Rdiv;
     mul := lift2 Rmult;
     pow := lift2 Rpower;
     eqb := fun a b =>
              match a, b with
              | Some x, Some y => if Req_dec_T x y then true else false
              | _, _ => false
              end;
     series_mean := fun xs =>
                      match collect xs with
                      | Some l => Sharpe.mean l
                      | None => None
                      end;
     series_std := fun xs =>
                     match collect xs with
                     | Some l => Sharpe.std l
                     | None => None
                     end |}.

End FloatSharpe.

(** * Properties *)

(** ** Dictionaries *)

Module DictFacts.

Section WithValue.
Context {V : Type}.
Implicit Types (d : Dict.t V) (k : string) (v : V).

Lemma get_set_eq d k v : Dict.get k (Dict.set k v d) = Some v.
Proof.
  induction d as [|[k' v'] d IH]; simpl.
  - now rewrite String.eqb_refl.
  - destruct (String.eqb k k') eqn:E; simpl; rewrite E; auto.
Qed.

Lemma get_set_ne d k k' v :
  k <> k' -> Dict.get k' (Dict.set k v d) = Dict.get k' d.
Proof.
  intros Hne. induction d as [|[k0 v0] d IH]; simpl.
  - destruct (String.eqb_spec k' k); congruence.
  - destruct (String.eqb_spec k k0) as [->|]; simpl.
    + destruct (String.eqb_spec k' k0); congruence.
    + now rewrite IH.
Qed.

Lemma get_del_eq d k : Dict.get k (Dict.del k d) = None.
Proof.
  induction d as [|[k' v'] d IH]; simpl; auto.
  destruct (String.eqb k k') eqn:E; simpl; rewrite ?E; auto.
Qed.

Lemma get_del_ne d k k' :
  k <> k' -> Dict.get k' (Dict.del k d) = Dict.get k' d.
Proof.
  intros Hne. induction d as [|[k0 v0] d IH]; simpl; auto.
  destruct (String.eqb_spec k k0) as [->|]; simpl.
  - destruct (String.eqb_spec k' k0); congruence.
  - now rewrite IH.
Qed.

Lemma get_None_keys d k : Dict.get k d = None <-> ~ In k (Dict.keys d).
Proof.
  induction d as [|[k' v'] d IH]; simpl.
  - tauto.
  - destruct (String.eqb_spec k k') as [->|Hne].
    + split; [discriminate | tauto].
    + rewrite IH. split; [intros H [E|E]; congruence || auto | tauto].
Qed.

Lemma keys_set_present d k v :
  In k (Dict.keys d) -> Dict.keys (Dict.set k v d) = Dict.keys d.
Proof.
  induction d as [|[k' v'] d IH]; simpl; [tauto|].
  destruct (String.eqb_spec k k') as [->|Hne]; simpl; auto.
  intros [E|Hin]; [congruence|]. now rewrite IH.
Qed.

Lemma keys_set_absent d k v :
  ~ In k (Dict.keys d) -> Dict.keys (Dict.set k v d) = Dict.keys d ++ [k].
Proof.
  induction d as [|[k' v'] d IH]; simpl; auto.
  intros Hn. destruct (String.eqb_spec k k') as [->|Hne]; [tauto|].
  simpl. rewrite IH; tauto.
Qed.

Lemma NoDup_keys_set d k v :
  NoDup (Dict.keys d) -> NoDup (Dict.keys (Dict.set k v d)).
Proof.
  intros Hnd. destruct (in_dec string_dec k (Dict.keys d)) as [Hin|Hout].
  - now rewrite keys_set_present.
  - rewrite keys_set_absent by assumption.
    apply NoDup_app; auto.
    + repeat constructor. simpl. tauto.
    + intros x Hx [<-|[]]. tauto.
Qed.

Lemma In_keys_del d k k' :
  In k' (Dict.keys (Dict.del k d)) -> In k' (Dict.keys d).
Proof.
  induction d as [|[k0 v0] d IH]; simpl; auto.
  destruct (String.eqb k k0); simpl; tauto.
Qed.

Lemma NoDup_keys_del d k :
  NoDup (Dict.keys d) -> NoDup (Dict.keys (Dict.del k d)).
Proof.
  induction d as [|[k0 v0] d IH]; simpl; auto.
  intros Hnd. inversion Hnd; subst.
  destruct (String.eqb k k0); simpl; auto.
  constructor; auto. intros Hin. now apply In_keys_del in Hin.
Qed.

Lemma Forall_set (P : string * V -> Prop) d k v :
  (forall k', P (k', v)) -> Forall P d -> Forall P (Dict.set k v d).
Proof.
  intros Hv. induction 1 as [|[k' v'] d Hx Hd IH]; simpl.
  - repeat constructor. apply Hv.
  - destruct (String.eqb k k'); constructor; auto.
Qed.

Lemma Forall_del (P : string * V -> Prop) d k :
  Forall P d -> Forall P (Dict.del k d).
Proof.
  induction 1 as [|[k' v'] d Hx Hd IH]; simpl; auto.
  destruct (String.eqb k k'); auto.
Qed.

Lemma get_In d k v : Dict.get k d = Some v -> In (k, v) d.
Proof.
  induction d as [|[k' v'] d IH]; simpl; [discriminate|].
  destruct (String.eqb_spec k k') as [->|Hne].
  - intros [= ->]. now left.
  - intros H. right. auto.
Qed.

End WithValue.

End DictFacts.

(** ** The ledger: [execute_trade] *)

Lemma Qle_bool_false (a b : Q) : Qle_bool a b = false <-> b < a.
Proof.
  split; intros H.
  - apply Qnot_le_lt. intros Hle. apply Qle_bool_iff in Hle. congruence.
  - destruct (Qle_bool a b) eqn:E; auto.
    apply Qle_bool_iff in E. apply Qle_not_lt in E. contradiction.
Qed.

Lemma py_min_Qmin (a b : Q) : py_min a b = Qmin a b.
Proof.
  unfold py_min, Qmin, GenericMinMax.gmin.
  destruct (Qle_bool a b) eqn:E.
  - apply Qle_bool_iff in E. destruct (a ?= b) eqn:C; auto.
    apply Qgt_alt in C. apply Qle_not_lt in E. contradiction.
  - apply Qle_bool_false in E. apply Qgt_alt in E. now rewrite E.
Qed.

Lemma Qmin_clamps (a b : Q) : b < a -> Qmin a b = b.
Proof.
  intros H. rewrite <- py_min_Qmin. unfold py_min.
  apply Qle_bool_false in H. now rewrite H.
Qed.

Ltac case_Qle :=
  match goal with
  | |- context [Qle_bool ?a ?b] =>
      let E := fresh "E" in
      destruct (Qle_bool a b) eqn:E;
      [apply Qle_bool_iff in E | apply Qle_bool_false in E]
  end.

(** C2: a buy whose cost exceeds the cash touches neither the cash nor the
    positions, and is nevertheless appended to the history, with the quantity
    the sizing function computed, and returned. *)
Theorem unaffordable_buy_is_recorded (S : Strategy) (st : Ledger) (price : Q)
    (ts : datetime) (sym : string) :
  let qty := calculate_position_size S st BUY price (current_balance st) in
  0 < qty ->
  current_balance st < price * qty ->
  exists st',
    execute_trade S st BUY price ts sym
      = (st', Some (requested_trade S st BUY price ts))
    /\ current_balance st' = current_balance st
    /\ positions st' = positions st
    /\ trades st' = trades st ++ [requested_trade S st BUY price ts]
    /\ trade_quantity (requested_trade S st BUY price ts) = qty.
Proof.
  intros qty Hpos Hcost.
  exists (append_trade st (requested_trade S st BUY price ts)).
  unfold execute_trade, execute_buy. fold qty.
  apply Qle_bool_false in Hpos. rewrite Hpos.
  apply Qle_bool_false in Hcost. rewrite Hcost.
  repeat split.
Qed.

(** The same strategy asked to put twice its cash into one buy. *)
Lemma unaffordable_buy_is_recorded_witness :
  exists st',
    execute_trade (SMACrossoverStrategy 20 50 2) (new_ledger 10000) BUY 100
      0%Z "BTC/USDT"
    = (st', Some (requested_trade (SMACrossoverStrategy 20 50 2)
                    (new_ledger 10000) BUY 100 0%Z))
    /\ current_balance st' = 10000
    /\ positions st' = []
    /\ trades st'
       = [requested_trade (SMACrossoverStrategy 20 50 2) (new_ledger 10000)
            BUY 100 0%Z]
    /\ trade_quantity
         (requested_trade (SMACrossoverStrategy 20 50 2) (new_ledger 10000)
            BUY 100 0%Z)
       = 10000 * 2 / 100.
Proof.
  apply (unaffordable_buy_is_recorded (SMACrossoverStrategy 20 50 2)
           (new_ledger 10000) 100 0%Z "BTC/USDT"); reflexivity.
Defined.

(** C3: a sell with no position for the symbol records the trade with the
    quantity requested and changes nothing else; a sell against a position
    fills [min(requested, held)], credits the cash with the price times the
    filled quantity, shrinks the position or removes it when nothing is left,
    and the trade recorded and returned carries the filled quantity in place
    of the requested one. *)
Theorem sell_is_recorded_and_clamped (S : Strategy) (st : Ledger) (price : Q)
    (ts : datetime) (sym : string) :
  let qty := calculate_position_size S st SELL price (current_balance st) in
  0 < qty ->
  match Dict.get sym (positions st) with
  | None =>
      let requested := mkTrade ts SELL price qty "Signal: sell" in
      exists st',
        execute_trade S st SELL price ts sym = (st', Some requested)
        /\ trades st' = trades st ++ [requested]
        /\ trade_quantity requested = qty
        /\ current_balance st' = current_balance st
        /\ positions st' = positions st
  | Some p =>
      let filled := Qmin qty (quantity p) in
      let recorded := mkTrade ts SELL price filled "Signal: sell" in
      exists st',
        execute_trade S st SELL price ts sym = (st', Some recorded)
        /\ trades st' = trades st ++ [recorded]
        /\ trade_quantity recorded = filled
        /\ (quantity p < qty -> trade_quantity recorded = quantity p)
        /\ current_balance st' = current_balance st + price * filled
        /\ (quantity p - filled <= 0 -> Dict.get sym (positions st') = None)
        /\ (0 < quantity p - filled ->
            Dict.get sym (positions st')
            = Some (mkPosition (symbol p) (quantity p - filled)
                      (entry_price p) (entry_time p) (current_price p)
                      (unrealized_pnl p)))
        /\ (forall k, k <> sym ->
            Dict.get k (positions st') = Dict.get k (positions st))
  end.
Proof.
  intros qty Hpos.
  unfold execute_trade, execute_sell. fold qty.
  pose proof Hpos as Hq. apply Qle_bool_false in Hq. rewrite Hq.
  destruct (Dict.get sym (positions st)) as [p|] eqn:Hget.
  - cbv beta iota zeta. rewrite !py_min_Qmin.
    eexists. split; [reflexivity|]. simpl.
    split; [reflexivity|]. split; [reflexivity|]. split.
    { intros Hlt. now apply Qmin_clamps. }
    split; [reflexivity|]. repeat split.
    + intros Hle. apply Qle_bool_iff in Hle. rewrite Hle.
      apply DictFacts.get_del_eq.
    + intros Hlt. apply Qle_bool_false in Hlt. rewrite Hlt.
      apply DictFacts.get_set_eq.
    + intros k Hk. case_Qle.
      * apply DictFacts.get_del_ne. congruence.
      * apply DictFacts.get_set_ne. congruence.
  - cbv beta iota zeta. eexists. split; [reflexivity|]. repeat split.
Qed.

(** A sell of 40 units at 110 against the 10 units held: 10 are filled, the
    trade records 10, and the position is closed. *)
Lemma sell_is_recorded_and_clamped_witness :
  let S := mkStrategy (fun _ _ => SELL) (fun _ _ _ _ => 40) in
  let st :=
    mkLedger 10000 9000
      [("BTC/USDT"%string, mkPosition "BTC/USDT" 10 100 0%Z 100 0)] [] in
  exists st',
    execute_trade S st SELL 110 1%Z "BTC/USDT"
      = (st', Some (mkTrade 1%Z SELL 110 10 "Signal: sell"))
    /\ trades st' = [mkTrade 1%Z SELL 110 10 "Signal: sell"]
    /\ current_balance st' = 9000 + 110 * 10
    /\ Dict.get "BTC/USDT" (positions st') = None.
Proof.
  intros S st.
  destruct (sell_is_recorded_and_clamped S st 110 1%Z "BTC/USDT")
    as (st' & Hrun & Htrades & _ & _ & Hcash & Hgone & _); [reflexivity|].
  exists st'. repeat split.
  - exact Hrun.
  - exact Htrades.
  - exact Hcash.
  - apply Hgone. discriminate.
Defined.

(** ** The ledger invariant *)

Lemma ledger_inv_new (balance : Q) : ledger_inv (new_ledger balance).
Proof. split; simpl; constructor. Qed.

Lemma ledger_inv_append (st : Ledger) (t : Trade) :
  ledger_inv st -> ledger_inv (append_trade st t).
Proof. intros H. exact H. Qed.

Lemma held_quantity_positive (st : Ledger) (sym : string) (p : Position) :
  ledger_inv st -> Dict.get sym (positions st) = Some p -> 0 < quantity p.
Proof.
  intros [_ Hall] Hget. apply DictFacts.get_In in Hget.
  rewrite Forall_forall in Hall. exact (Hall _ Hget).
Qed.

Lemma execute_buy_inv (st : Ledger) (price qty : Q) (ts : datetime)
    (sym : string) :
  0 < qty -> ledger_inv st -> ledger_inv (execute_buy st price qty ts sym).
Proof.
  intros Hqty Hinv. unfold execute_buy. case_Qle; [|assumption].
  simpl. destruct (Dict.get sym (positions st)) as [existing|] eqn:Hget.
  - pose proof (held_quantity_positive _ _ _ Hinv Hget) as Hex.
    destruct Hinv as [Hnd Hall]. split; simpl.
    + now apply DictFacts.NoDup_keys_set.
    + apply DictFacts.Forall_set; [|assumption].
      intros k. unfold positive_quantity. simpl. lra.
  - destruct Hinv as [Hnd Hall]. split; simpl.
    + now apply DictFacts.NoDup_keys_set.
    + apply DictFacts.Forall_set; [|assumption].
      intros k. exact Hqty.
Qed.

Lemma execute_sell_inv (st : Ledger) (trade : Trade) (price qty : Q)
    (sym : string) :
  ledger_inv st -> ledger_inv (fst (execute_sell st trade price qty sym)).
Proof.
  intros Hinv. unfold execute_sell.
  destruct (Dict.get sym (positions st)) as [position|]; [|assumption].
  destruct Hinv as [Hnd Hall]. simpl. case_Qle; split; simpl.
  - now apply DictFacts.NoDup_keys_del.
  - now apply DictFacts.Forall_del.
  - now apply DictFacts.NoDup_keys_set.
  - apply DictFacts.Forall_set; [|assumption].
    intros k. exact E.
Qed.

Lemma execute_trade_inv (S : Strategy) (st : Ledger) (signal : Signal)
    (price : Q) (ts : datetime) (sym : string) :
  ledger_inv st -> ledger_inv (fst (execute_trade S st signal price ts sym)).
Proof.
  intros Hinv. unfold execute_trade.
  destruct signal; try assumption; case_Qle; try assumption.
  - simpl. apply ledger_inv_append. now apply execute_buy_inv.
  - pose proof (execute_sell_inv st
      (mkTrade ts SELL price
         (calculate_position_size S st SELL price (current_balance st))
         (String.append "Signal: " (Signal_value SELL)))
      price
      (calculate_position_size S st SELL price (current_balance st))
      sym Hinv) as H.
    destruct (execute_sell _ _ _ _ _) as [st' trade']. simpl in *.
    now apply ledger_inv_append.
Qed.

(** C5: whatever the strategy and whatever the calls, the positions keep
    one entry per symbol and every entry keeps a positive quantity. *)
Theorem execute_trades_keep_positions_positive (S : Strategy) (st : Ledger)
    (calls : list Call) :
  ledger_inv st -> ledger_inv (execute_trades S st calls).
Proof.
  unfold execute_trades. revert st.
  induction calls as [|c calls IH]; intros st Hinv; simpl.
  - assumption.
  - apply IH. unfold execute_call. now apply execute_trade_inv.
Qed.

(** A buy, a partial sell and a sell of the rest, from a fresh ledger. *)
Lemma execute_trades_keep_positions_positive_witness :
  let S := SMACrossoverStrategy 20 50 (1 # 10) in
  let calls :=
    [mkCall BUY 100 0%Z "BTC/USDT"; mkCall BUY 50 1%Z "ETH/USDT";
     mkCall SELL 120 2%Z "BTC/USDT"; mkCall HOLD 120 3%Z "BTC/USDT"] in
  ledger_inv (new_ledger 10000)
  /\ ledger_inv (execute_trades S (new_ledger 10000) calls).
Proof.
  intros S calls. split.
  - apply ledger_inv_new.
  - apply (execute_trades_keep_positions_positive S (new_ledger 10000) calls).
    apply ledger_inv_new.
Defined.

(** ** Sizing of the SMA crossover strategy *)

Section SMA_sizing.

Variables short_window long_window : nat.
Variable position_size_pct : Q.

Let strategy :=
  SMACrossoverStrategy short_window long_window position_size_pct.

(** C10, as the code has it: the sizing of a sell looks the position up
    under ["BTC/USDT"]; when there is none, whatever the symbol traded,
    the size is 0 and [execute_trade] returns nothing and records
    nothing. *)
Theorem sell_without_btc_position_is_dropped (st : Ledger) (price : Q)
    (ts : datetime) (sym : string) :
  Dict.get "BTC/USDT"%string (positions st) = None ->
  calculate_position_size strategy st SELL price (current_balance st) = 0
  /\ execute_trade strategy st SELL price ts sym = (st, None).
Proof.
  intros Hnone. unfold execute_trade. simpl.
  unfold sma_calculate_position_size. rewrite Hnone. now split.
Qed.

End SMA_sizing.

Lemma sell_without_btc_position_is_dropped_witness :
  calculate_position_size (SMACrossoverStrategy 20 50 (1 # 10))
    (new_ledger 10000) SELL 100 10000 = 0
  /\ execute_trade (SMACrossoverStrategy 20 50 (1 # 10)) (new_ledger 10000)
       SELL 100 0%Z "BTC/USDT" = (new_ledger 10000, None).
Proof.
  apply (sell_without_btc_position_is_dropped 20 50 (1 # 10)
           (new_ledger 10000) 100 0%Z "BTC/USDT").
  reflexivity.
Defined.

(** C10, as stated, fails when the symbol traded is not the one the sizing
    looks up: after a buy of ["BTC/USDT"], a sell of ["ETH/USDT"] finds no
    position for its symbol, yet is sized at the 10 units held and
    recorded. *)
Lemma sell_of_other_symbol_is_recorded :
  let S := SMACrossoverStrategy 20 50 (1 # 10) in
  let st := fst (execute_trade S (new_ledger 10000) BUY 100 0%Z "BTC/USDT") in
  Dict.get "ETH/USDT"%string (positions st) = None
  /\ ~ calculate_position_size S st SELL 100 (current_balance st) == 0
  /\ snd (execute_trade S st SELL 100 1%Z "ETH/USDT") <> None
  /\ List.length (trades (fst (execute_trade S st SELL 100 1%Z "ETH/USDT")))
     = Datatypes.S (List.length (trades st)).
Proof.
  cbv zeta. repeat split; try discriminate.
Qed.

(** ** The scenario of one buy *)

(** C1: with 10000 of cash, a sizing fraction of 0.1 and a commission rate of
    0.001, a buy at 100 is sized at 10 units; [execute_trade] leaves 9000 and
    a position of 10 units entered at 100; the engine then debits
    100 x 10 x 0.001 = 1 and leaves 8999.  The last part replays the three
    closes 100, 50, 100 through the whole loop, where the crossover of the
    1-bar and 2-bar averages issues that buy at the third bar. *)
Theorem single_buy_scenario (short_window long_window : nat)
    (ts : datetime) (sym : string) (o h l v : Q) :
  let S := SMACrossoverStrategy short_window long_window (1 # 10) in
  let st := new_ledger 10000 in
  let row := mkBar ts o h l 100 v in
  calculate_position_size S st BUY 100 (current_balance st) == 10
  /\ (exists st1 trade p,
        execute_trade S st BUY 100 ts sym = (st1, Some trade)
        /\ trade_quantity trade == 10
        /\ current_balance st1 == 9000
        /\ positions st1 = [(sym, p)]
        /\ quantity p == 10
        /\ entry_price p == 100
        /\ exists st2 commission,
             trade_step S (1 # 1000) sym st BUY row = (st2, [commission])
             /\ commission
                = trade_price trade * trade_quantity trade * (1 # 1000)
             /\ commission == 1
             /\ current_balance st2 == 8999
             /\ positions st2 = positions st1
             /\ trades st2 = [trade])
  /\ (exists r p commission,
        run_backtest (SMACrossoverStrategy 1 2 (1 # 10)) (1 # 1000) "BTC/USDT"
          (new_ledger 10000) (bars_of_closes [100; 50; 100]) = inr r
        /\ r_signals r = ["hold"; "hold"; "buy"]%string
        /\ r_commissions r = [commission]
        /\ commission == 1
        /\ current_balance (r_strategy r) == 8999
        /\ Dict.get "BTC/USDT"%string (positions (r_strategy r)) = Some p
        /\ quantity p == 10
        /\ entry_price p == 100).
Proof.
  intros S st row. split; [reflexivity|]. split.
  - unfold trade_step, execute_trade, execute_buy. simpl.
    do 3 eexists. split; [reflexivity|].
    repeat (split; [reflexivity|]).
    do 2 eexists. split; [reflexivity|].
    repeat split.
  - do 3 eexists. split; [vm_compute; reflexivity|].
    repeat split.
Qed.

(** ** Valuation *)

Lemma fold_left_Qplus_compat (xs : list Q) (a b : Q) :
  a == b -> fold_left Qplus xs a == fold_left Qplus xs b.
Proof.
  revert a b. induction xs as [|x xs IH]; intros a b Hab; simpl; auto.
  apply IH. now rewrite Hab.
Qed.

Lemma fold_left_Qplus_shift (xs : list Q) (a b : Q) :
  fold_left Qplus xs (a + b) == a + fold_left Qplus xs b.
Proof.
  revert b. induction xs as [|x xs IH]; intros b; simpl.
  - reflexivity.
  - transitivity (fold_left Qplus xs (a + (b + x))).
    + apply fold_left_Qplus_compat. ring.
    + apply IH.
Qed.

Lemma sum_Q_cons (x : Q) (xs : list Q) : sum_Q (x :: xs) == x + sum_Q xs.
Proof.
  unfold sum_Q. simpl. rewrite <- fold_left_Qplus_shift.
  apply fold_left_Qplus_compat. ring.
Qed.

Lemma sum_Q_app (xs ys : list Q) : sum_Q (xs ++ ys) == sum_Q xs + sum_Q ys.
Proof.
  induction xs as [|x xs IH]; simpl.
  - unfold sum_Q at 2. simpl. ring.
  - rewrite !sum_Q_cons, IH. ring.
Qed.

Lemma value_loop_spec (ps : Dict.t Position) (current_prices : Dict.t Q)
    (acc : Q) :
  fst (value_loop ps current_prices acc) = map (refresh current_prices) ps
  /\ snd (value_loop ps current_prices acc)
     == acc + sum_Q (map (priced_value current_prices) ps).
Proof.
  revert acc. induction ps as [|[sym p] ps IH]; intros acc.
  - simpl. split; [reflexivity|]. unfold sum_Q. simpl. ring.
  - cbn [value_loop map]. rewrite sum_Q_cons.
    unfold refresh at 1, priced_value at 1. cbn [fst snd].
    destruct (Dict.get sym current_prices) as [price|].
    + specialize (IH (acc + quantity (update_price p price) * price)).
      destruct (value_loop ps current_prices _) as [ps' v'].
      cbn [fst snd] in *. destruct IH as [-> Hv].
      split; [reflexivity|]. rewrite Hv. simpl. ring.
    + specialize (IH acc).
      destruct (value_loop ps current_prices acc) as [ps' v'].
      cbn [fst snd] in *. destruct IH as [-> Hv].
      split; [reflexivity|]. rewrite Hv. ring.
Qed.

(** C6, as the code has it: the value is the cash plus quantity times the
    supplied price over the positions whose symbol is priced; a position
    without a price adds nothing and is left as it was; every priced position
    has its [current_price] and [unrealized_pnl] refreshed; the cash and the
    history are not touched. *)
Theorem portfolio_value_counts_priced_positions (st : Ledger)
    (current_prices : Dict.t Q) :
  snd (get_portfolio_value st current_prices)
    == current_balance st
       + sum_Q (map (priced_value current_prices) (positions st))
  /\ positions (fst (get_portfolio_value st current_prices))
     = map (refresh current_prices) (positions st)
  /\ current_balance (fst (get_portfolio_value st current_prices))
     = current_balance st
  /\ trades (fst (get_portfolio_value st current_prices)) = trades st
  /\ (forall sym p price,
        Dict.get sym current_prices = Some price ->
        refresh current_prices (sym, p)
          = (sym, mkPosition (symbol p) (quantity p) (entry_price p)
                    (entry_time p) price
                    ((price - entry_price p) * quantity p)))
  /\ (forall sym p,
        Dict.get sym current_prices = None ->
        refresh current_prices (sym, p) = (sym, p)
        /\ priced_value current_prices (sym, p) = 0).
Proof.
  unfold get_portfolio_value.
  pose proof (value_loop_spec (positions st) current_prices
                (current_balance st)) as [Hps Hv].
  destruct (value_loop _ _ _) as [ps v]. simpl in *.
  repeat split; auto.
  - intros sym p price Hget. unfold refresh. simpl. now rewrite Hget.
  - unfold refresh. simpl. now rewrite H.
  - unfold priced_value. simpl. now rewrite H.
Qed.

(** C6, as stated, fails on a position without a price: after a buy of 10
    units of ["ETH/USDT"] at 100, the value at the prices
    [{"BTC/USDT": 50}] is the cash, 9000, and not 9000 + 10 x 100. *)
Lemma unpriced_position_is_not_valued :
  let S := SMACrossoverStrategy 20 50 (1 # 10) in
  let st := fst (execute_trade S (new_ledger 10000) BUY 100 0%Z "ETH/USDT") in
  let current_prices := [("BTC/USDT"%string, 50)] in
  snd (get_portfolio_value st current_prices) == 9000
  /\ spec_portfolio_value st current_prices == 10000
  /\ ~ snd (get_portfolio_value st current_prices)
       == spec_portfolio_value st current_prices.
Proof.
  cbv zeta. repeat split; try reflexivity. discriminate.
Qed.

(** ** The replay loop *)

Lemma execute_trade_history (S : Strategy) (st : Ledger) (signal : Signal)
    (price : Q) (ts : datetime) (sym : string) :
  match snd (execute_trade S st signal price ts sym) with
  | Some t => trades (fst (execute_trade S st signal price ts sym))
              = trades st ++ [t]
  | None => fst (execute_trade S st signal price ts sym) = st
  end.
Proof.
  unfold execute_trade.
  destruct signal; simpl; try reflexivity; case_Qle; simpl; try reflexivity.
  - unfold execute_buy. case_Qle; simpl; [|reflexivity].
    destruct (Dict.get sym (positions st)); reflexivity.
  - unfold execute_sell.
    destruct (Dict.get sym (positions st)); reflexivity.
Qed.

Lemma get_portfolio_value_trades (st : Ledger) (current_prices : Dict.t Q) :
  trades (fst (get_portfolio_value st current_prices)) = trades st.
Proof.
  unfold get_portfolio_value.
  destruct (value_loop _ _ _) as [ps v]. reflexivity.
Qed.

Lemma execute_trade_initial_balance (S : Strategy) (st : Ledger)
    (signal : Signal) (price : Q) (ts : datetime) (sym : string) :
  initial_balance (fst (execute_trade S st signal price ts sym))
  = initial_balance st.
Proof.
  unfold execute_trade.
  destruct signal; simpl; try reflexivity; case_Qle; simpl; try reflexivity.
  - unfold execute_buy. case_Qle; simpl; [|reflexivity].
    destruct (Dict.get sym (positions st)); reflexivity.
  - unfold execute_sell.
    destruct (Dict.get sym (positions st)); reflexivity.
Qed.

Lemma get_portfolio_value_initial_balance (st : Ledger)
    (current_prices : Dict.t Q) :
  initial_balance (fst (get_portfolio_value st current_prices))
  = initial_balance st.
Proof.
  unfold get_portfolio_value.
  destruct (value_loop _ _ _) as [ps v]. reflexivity.
Qed.

Section Replay.

Variable S : Strategy.
Variable commission_rate : Q.
Variable sym : string.

Local Abbreviation step_trade := (trade_step S commission_rate sym).
Local Abbreviation step_bar := (bar_step S commission_rate sym).
Local Abbreviation replay_from := (replay S commission_rate sym).

Local Abbreviation value_of := (value_at S commission_rate sym).

Lemma trade_step_log (st : Ledger) (signal : Signal) (row : Bar) :
  map (commission_of commission_rate) (trades (fst (step_trade st signal row)))
  = map (commission_of commission_rate) (trades st)
    ++ snd (step_trade st signal row).
Proof.
  unfold trade_step.
  pose proof (execute_trade_history S st signal (close row) (timestamp row)
                sym) as H.
  destruct signal; try (simpl; now rewrite app_nil_r).
  - destruct (execute_trade S st BUY _ _ _) as [st' [t|]]; simpl in *.
    + rewrite H, map_app. reflexivity.
    + subst. now rewrite app_nil_r.
  - destruct (execute_trade S st SELL _ _ _) as [st' [t|]]; simpl in *.
    + rewrite H, map_app. reflexivity.
    + subst. now rewrite app_nil_r.
Qed.

Lemma bar_step_fields (current_data : list Bar) (row : Bar)
    (ls : LoopState) :
  ls_signals (step_bar current_data row ls)
    = ls_signals ls
      ++ [Signal_value (generate_signal S (ls_ledger ls) current_data)]
  /\ ls_portfolio_values (step_bar current_data row ls)
     = ls_portfolio_values ls ++ [value_of (ls_ledger ls) current_data row]
  /\ ls_commissions (step_bar current_data row ls)
     = ls_commissions ls
       ++ snd (step_trade (ls_ledger ls)
                 (generate_signal S (ls_ledger ls) current_data) row)
  /\ trades (ls_ledger (step_bar current_data row ls))
     = trades (fst (step_trade (ls_ledger ls)
                      (generate_signal S (ls_ledger ls) current_data) row)).
Proof.
  unfold bar_step, value_at.
  destruct (trade_step S commission_rate sym (ls_ledger ls) _ row)
    as [st1 debited] eqn:Hstep.
  cbn [fst snd].
  pose proof (get_portfolio_value_trades st1 [(sym, close row)]) as Htr.
  destruct (get_portfolio_value st1 _) as [st2 v]. simpl in *.
  repeat split. exact Htr.
Qed.

Lemma replay_app (seen r1 r2 : list Bar) (ls : LoopState) :
  replay_from seen (r1 ++ r2) ls
  = replay_from (seen ++ r1) r2 (replay_from seen r1 ls).
Proof.
  revert seen ls. induction r1 as [|row r1 IH]; intros seen ls; simpl.
  - now rewrite app_nil_r.
  - simpl. rewrite IH. now rewrite <- app_assoc.
Qed.

Lemma replay_extends (seen rest : list Bar) (ls : LoopState) :
  exists values signals,
    ls_portfolio_values (replay_from seen rest ls)
      = ls_portfolio_values ls ++ values
    /\ ls_signals (replay_from seen rest ls) = ls_signals ls ++ signals
    /\ List.length values = List.length rest
    /\ List.length signals = List.length rest.
Proof.
  revert seen ls. induction rest as [|row rest IH]; intros seen ls.
  - exists [], []. simpl. now rewrite !app_nil_r.
  - simpl.
    destruct (IH (seen ++ [row])
                (step_bar (seen ++ [row]) row ls))
      as (vs & ss & Hv & Hs & Lv & Ls).
    destruct (bar_step_fields (seen ++ [row]) row ls) as (Fs & Fv & _).
    rewrite Hv, Hs, Fv, Fs.
    eexists (_ :: vs), (_ :: ss). rewrite <- !app_assoc. simpl.
    repeat split; congruence.
Qed.

Lemma replay_lengths (rest : list Bar) (st : Ledger) :
  List.length (ls_portfolio_values (replay_from [] rest (init_loop st)))
    = List.length rest
  /\ List.length (ls_signals (replay_from [] rest (init_loop st)))
     = List.length rest.
Proof.
  destruct (replay_extends [] rest (init_loop st))
    as (vs & ss & Hv & Hs & Lv & Ls).
  rewrite Hv, Hs. simpl. auto.
Qed.

(** The commissions debited so far are those of the trades recorded so
    far. *)
Lemma replay_log (seen rest : list Bar) (ls : LoopState) (old : list Q) :
  map (commission_of commission_rate) (trades (ls_ledger ls))
    = old ++ ls_commissions ls ->
  map (commission_of commission_rate)
      (trades (ls_ledger (replay_from seen rest ls)))
    = old ++ ls_commissions (replay_from seen rest ls).
Proof.
  revert seen ls. induction rest as [|row rest IH]; intros seen ls Hls.
  - exact Hls.
  - simpl. apply IH.
    destruct (bar_step_fields (seen ++ [row]) row ls)
      as (_ & _ & Fc & Ft).
    rewrite Ft, Fc, trade_step_log, Hls.
    now rewrite app_assoc.
Qed.

Lemma trade_step_initial_balance (st : Ledger) (signal : Signal) (row : Bar) :
  initial_balance (fst (step_trade st signal row)) = initial_balance st.
Proof.
  unfold trade_step.
  pose proof (execute_trade_initial_balance S st signal (close row)
                (timestamp row) sym) as H.
  destruct signal; try reflexivity.
  - destruct (execute_trade S st BUY _ _ _) as [st' [t|]]; exact H.
  - destruct (execute_trade S st SELL _ _ _) as [st' [t|]]; exact H.
Qed.

Lemma bar_step_initial_balance (current_data : list Bar) (row : Bar)
    (ls : LoopState) :
  initial_balance (ls_ledger (step_bar current_data row ls))
  = initial_balance (ls_ledger ls).
Proof.
  unfold bar_step.
  pose proof (trade_step_initial_balance (ls_ledger ls)
                (generate_signal S (ls_ledger ls) current_data) row) as H1.
  destruct (trade_step S commission_rate sym (ls_ledger ls) _ row)
    as [st1 debited].
  pose proof (get_portfolio_value_initial_balance st1 [(sym, close row)])
    as H2.
  destruct (get_portfolio_value st1 _) as [st2 v]. simpl in *. congruence.
Qed.

Lemma replay_initial_balance (seen rest : list Bar) (ls : LoopState) :
  initial_balance (ls_ledger (replay_from seen rest ls))
  = initial_balance (ls_ledger ls).
Proof.
  revert seen ls. induction rest as [|row rest IH]; intros seen ls; simpl.
  - reflexivity.
  - rewrite IH. apply bar_step_initial_balance.
Qed.

End Replay.

Lemma firstn_around {A : Type} (before after : list A) (row : A) :
  firstn (List.length before) (before ++ row :: after) = before
  /\ firstn (Datatypes.S (List.length before)) (before ++ row :: after)
     = before ++ [row].
Proof.
  split.
  - rewrite firstn_app, firstn_all, Nat.sub_diag. simpl. apply app_nil_r.
  - rewrite firstn_app, firstn_all2 by lia.
    replace (Datatypes.S (List.length before) - List.length before)%nat
      with 1%nat by lia.
    reflexivity.
Qed.

Section Run.

Variable S : Strategy.
Variable commission_rate : Q.
Variable sym : string.

Local Abbreviation replay_from := (replay S commission_rate sym).
Local Abbreviation run := (run_backtest S commission_rate sym).

(** Entry [i] of both lists is the one appended while bar [i] was the
    current row. *)
Lemma replay_nth (st : Ledger) (before after : list Bar) (row : Bar) :
  let ls := replay_from [] (before ++ row :: after) (init_loop st) in
  let st_i := ls_ledger (replay_from [] before (init_loop st)) in
  let current_data := before ++ [row] in
  nth_error (ls_signals ls) (List.length before)
    = Some (Signal_value (generate_signal S st_i current_data))
  /\ nth_error (ls_portfolio_values ls) (List.length before)
     = Some (value_at S commission_rate sym st_i current_data row).
Proof.
  intros ls st_i current_data. subst ls.
  rewrite replay_app. simpl.
  destruct (replay_lengths S commission_rate sym before st) as [Lv Ls].
  destruct (bar_step_fields S commission_rate sym current_data row
              (replay S commission_rate sym [] before
                 (init_loop st)))
    as (Fs & Fv & _).
  destruct (replay_extends S commission_rate sym current_data after
              (bar_step S commission_rate sym current_data row
                 (replay S commission_rate sym [] before
                    (init_loop st))))
    as (vs & ss & Hv & Hs & _).
  fold current_data. rewrite Hv, Hs, Fv, Fs. fold st_i.
  rewrite <- !app_assoc. split.
  - rewrite nth_error_app2 by lia. rewrite Ls, Nat.sub_diag. reflexivity.
  - rewrite nth_error_app2 by lia. rewrite Lv, Nat.sub_diag. reflexivity.
Qed.

Lemma run_backtest_fields (st : Ledger) (ohlcv_data : list Bar)
    (r : BacktestResult) :
  run st ohlcv_data = inr r ->
  ohlcv_data <> []
  /\ r_portfolio_values r
     = ls_portfolio_values (replay_from [] ohlcv_data (init_loop st))
  /\ r_signals r = ls_signals (replay_from [] ohlcv_data (init_loop st))
  /\ r_commissions r
     = ls_commissions (replay_from [] ohlcv_data (init_loop st))
  /\ trades (r_strategy r)
     = trades (ls_ledger (replay_from [] ohlcv_data (init_loop st)))
  /\ r_total_commission_paid r
     = inject_Z (Z.of_nat (List.length (trades (r_strategy r))))
       * commission_rate.
Proof.
  unfold run_backtest.
  destruct ohlcv_data as [|row rest]; [discriminate|].
  set (data := row :: rest).
  set (ls := replay_from [] data (init_loop st)).
  unfold get_performance_metrics.
  pose proof (get_portfolio_value_trades (ls_ledger ls)
                [(sym, last (map close data) 0)]) as Htr.
  destruct (get_portfolio_value (ls_ledger ls) _) as [st' v].
  destruct (Qeq_bool (initial_balance st') 0); [discriminate|].
  intros [= <-]. simpl in *. repeat split; [discriminate | exact Htr].
Qed.

(** A run stops only on an empty frame or a zero initial balance. *)
Lemma run_backtest_succeeds (st : Ledger) (ohlcv_data : list Bar) :
  ohlcv_data <> [] ->
  ~ initial_balance st == 0 ->
  exists r, run st ohlcv_data = inr r.
Proof.
  intros Hne Hbal. unfold run_backtest.
  destruct ohlcv_data as [|row rest]; [congruence|].
  set (data := row :: rest).
  set (ls := replay_from [] data (init_loop st)).
  unfold get_performance_metrics.
  pose proof (get_portfolio_value_initial_balance (ls_ledger ls)
                [(sym, last (map close data) 0)]) as Hib.
  destruct (get_portfolio_value (ls_ledger ls) _) as [st' v].
  simpl in Hib. subst ls. rewrite replay_initial_balance in Hib.
  simpl in Hib. rewrite Hib.
  destruct (Qeq_bool (initial_balance st) 0) eqn:E.
  - apply Qeq_bool_iff in E. contradiction.
  - eexists. reflexivity.
Qed.

(** C4: a run over a non-empty series (with the nonzero initial balance the
    final metrics divide by) yields one value and one signal per bar; entry
    [i] of each list is the one computed for bar [i], from the prefix
    [bars[0..i]] and the ledger left by the bars before it. *)
Theorem series_are_aligned_with_bars (st : Ledger) (ohlcv_data : list Bar) :
  ohlcv_data <> [] ->
  ~ initial_balance st == 0 ->
  exists r,
    run st ohlcv_data = inr r
    /\ List.length (r_portfolio_values r) = List.length ohlcv_data
    /\ List.length (r_signals r) = List.length ohlcv_data
    /\ forall i row,
         nth_error ohlcv_data i = Some row ->
         let st_i :=
           ls_ledger (replay_from [] (firstn i ohlcv_data) (init_loop st)) in
         let current_data := firstn (Datatypes.S i) ohlcv_data in
         nth_error (r_signals r) i
           = Some (Signal_value (generate_signal S st_i current_data))
         /\ nth_error (r_portfolio_values r) i
            = Some (value_at S commission_rate sym st_i current_data row).
Proof.
  intros Hne Hbal.
  destruct (run_backtest_succeeds st ohlcv_data Hne Hbal) as (r & Hrun).
  destruct (run_backtest_fields st ohlcv_data r Hrun)
    as (_ & Hv & Hs & _).
  exists r. split; [exact Hrun|]. rewrite Hv, Hs.
  destruct (replay_lengths S commission_rate sym ohlcv_data st) as [Lv Ls].
  split; [exact Lv|]. split; [exact Ls|].
  intros i row Hrow.
  destruct (nth_error_split _ _ Hrow) as (before & after & -> & <-).
  destruct (firstn_around before after row) as [E1 E2].
  cbv zeta. rewrite E1, E2.
  apply (replay_nth st before after row).
Qed.

End Run.

Lemma series_are_aligned_with_bars_witness :
  exists r,
    run_backtest (SMACrossoverStrategy 1 2 (1 # 10)) (1 # 1000) "BTC/USDT"
      (new_ledger 10000) (bars_of_closes [100; 50; 100]) = inr r
    /\ List.length (r_portfolio_values r) = 3%nat
    /\ List.length (r_signals r) = 3%nat.
Proof.
  destruct (series_are_aligned_with_bars (SMACrossoverStrategy 1 2 (1 # 10))
              (1 # 1000) "BTC/USDT" (new_ledger 10000)
              (bars_of_closes [100; 50; 100]))
    as (r & Hrun & Hv & Hs & _).
  - discriminate.
  - discriminate.
  - exists r. repeat split; assumption.
Defined.

(** ** Commission *)

Lemma sum_Q_nil : sum_Q [] == 0.
Proof. reflexivity. Qed.

Lemma sum_commissions (commission_rate : Q) (ts : list Trade) :
  sum_Q (map (commission_of commission_rate) ts)
  == commission_rate * sum_Q (map notional ts).
Proof.
  induction ts as [|t ts IH]; simpl.
  - rewrite sum_Q_nil. ring.
  - rewrite !sum_Q_cons, IH. unfold commission_of, notional. ring.
Qed.

(** C9, as the code has it: [total_commission_paid] is the number of trades
    in the history times the rate.  The amounts debited during the run are
    those of the trades it recorded; for a strategy that starts with an empty
    history their sum is the rate times the summed notional, so the field
    equals what was debited exactly when
    rate x (sum of price x quantity - number of trades) = 0; with a single
    trade, a notional other than 1 and a rate other than 0, it differs. *)
Theorem total_commission_paid_counts_trades (S : Strategy)
    (commission_rate : Q) (sym : string) (st : Ledger)
    (ohlcv_data : list Bar) (r : BacktestResult) :
  run_backtest S commission_rate sym st ohlcv_data = inr r ->
  let history := trades (r_strategy r) in
  let count := inject_Z (Z.of_nat (List.length history)) in
  r_total_commission_paid r = count * commission_rate
  /\ map (commission_of commission_rate) history
     = map (commission_of commission_rate) (trades st) ++ r_commissions r
  /\ (trades st = [] ->
      sum_Q (r_commissions r)
        == commission_rate * sum_Q (map notional history)
      /\ (r_total_commission_paid r == sum_Q (r_commissions r)
          <-> commission_rate * (sum_Q (map notional history) - count) == 0)
      /\ (forall t,
            history = [t] ->
            ~ notional t == 1 ->
            ~ commission_rate == 0 ->
            ~ r_total_commission_paid r == sum_Q (r_commissions r))).
Proof.
  intros Hrun history count.
  destruct (run_backtest_fields S commission_rate sym st ohlcv_data r Hrun)
    as (_ & _ & _ & Hc & Ht & Htotal).
  assert (Hlog : map (commission_of commission_rate) history
                 = map (commission_of commission_rate) (trades st)
                   ++ r_commissions r).
  { subst history. rewrite Ht, Hc.
    apply replay_log. simpl. now rewrite app_nil_r. }
  split; [exact Htotal|]. split; [exact Hlog|].
  intros Hfresh. rewrite Hfresh in Hlog. simpl in Hlog.
  assert (Hsum : sum_Q (r_commissions r)
                 == commission_rate * sum_Q (map notional history)).
  { rewrite <- Hlog. apply sum_commissions. }
  assert (Hiff : r_total_commission_paid r == sum_Q (r_commissions r)
                 <-> commission_rate
                     * (sum_Q (map notional history) - count) == 0).
  { rewrite Htotal, Hsum. fold history. fold count.
    split; intros E; lra. }
  split; [exact Hsum|]. split; [exact Hiff|].
  intros t Hone Hnot Hrate Heq. apply Hiff in Heq.
  subst count. rewrite Hone in Heq. simpl in Heq.
  rewrite sum_Q_cons, sum_Q_nil in Heq.
  apply Qmult_integral in Heq. destruct Heq as [E|E]; [tauto|].
  apply Hnot. change (inject_Z 1) with 1 in E. lra.
Qed.

(** The run of C1: one trade, of notional 1000, at the rate 0.001. *)
Lemma total_commission_paid_counts_trades_witness :
  exists r,
    run_backtest (SMACrossoverStrategy 1 2 (1 # 10)) (1 # 1000) "BTC/USDT"
      (new_ledger 10000) (bars_of_closes [100; 50; 100]) = inr r
    /\ r_total_commission_paid r == 1 # 1000
    /\ sum_Q (r_commissions r) == 1
    /\ ~ r_total_commission_paid r == sum_Q (r_commissions r).
Proof.
  eexists. split; [vm_compute; reflexivity|].
  split; [reflexivity|]. split; [reflexivity|].
  eapply (total_commission_paid_counts_trades
            (SMACrossoverStrategy 1 2 (1 # 10)) (1 # 1000) "BTC/USDT"
            (new_ledger 10000) (bars_of_closes [100; 50; 100])).
  - vm_compute. reflexivity.
  - reflexivity.
  - reflexivity.
  - discriminate.
  - discriminate.
Defined.

(** C9, as stated, fails: with the closes 2, 1, 2, 10, 6 and 5 of cash, the
    run buys 0.25 at 2 and sells it at 6; the notionals are 0.5 and 1.5, both
    other than 1, and the commissions debited, 0.0005 + 0.0015, add up to the
    field, 2 x 0.001. *)
Lemma commission_field_can_equal_debits :
  exists r,
    run_backtest (SMACrossoverStrategy 1 2 (1 # 10)) (1 # 1000) "BTC/USDT"
      (new_ledger 5) (bars_of_closes [2; 1; 2; 10; 6]) = inr r
    /\ List.length (trades (r_strategy r)) = 2%nat
    /\ Forall (fun t => ~ notional t == 1) (trades (r_strategy r))
    /\ r_total_commission_paid r == sum_Q (r_commissions r).
Proof.
  eexists. split; [vm_compute; reflexivity|].
  split; [reflexivity|]. split; [|reflexivity].
  repeat constructor; discriminate.
Qed.

(** ** Maximum drawdown *)

Lemma py_max_cases (a b : Q) :
  (py_max a b = a \/ py_max a b = b) /\ a <= py_max a b /\ b <= py_max a b.
Proof.
  unfold py_max. case_Qle; repeat split; auto; lra.
Qed.

Lemma fold_py_max_spec (xs : list Q) (x : Q) :
  In (fold_left py_max xs x) (x :: xs)
  /\ forall v, In v (x :: xs) -> v <= fold_left py_max xs x.
Proof.
  revert x. induction xs as [|y xs IH]; intros x; simpl.
  - split; [now left|]. intros v [<-|[]]. lra.
  - destruct (IH (py_max x y)) as [Hin Hub].
    destruct (py_max_cases x y) as (Hc & Hx & Hy). split.
    + simpl in Hin. destruct Hin as [E|Hin]; [|now right; right].
      rewrite <- E. destruct Hc as [->| ->]; auto.
    + intros v [<-|[<-|Hv]].
      * apply Qle_trans with (py_max x y); [exact Hx|]. apply Hub. now left.
      * apply Qle_trans with (py_max x y); [exact Hy|]. apply Hub. now left.
      * apply Hub. now right.
Qed.

Lemma running_max_is_prefix_max (values : list Q) (t : nat) :
  (t < List.length values)%nat ->
  In (running_max values t) (firstn (Datatypes.S t) values)
  /\ forall v,
       In v (firstn (Datatypes.S t) values) -> v <= running_max values t.
Proof.
  intros Ht. unfold running_max.
  destruct values as [|x xs]; [simpl in Ht; lia|].
  simpl firstn. apply fold_py_max_spec.
Qed.

Lemma expanding_max_from_nth (xs : list Q) (m : Q) (t : nat) :
  (t < List.length xs)%nat ->
  nth_error (expanding_max_from m xs) t
  = Some (fold_left py_max (firstn (Datatypes.S t) xs) m).
Proof.
  revert m t. induction xs as [|x xs IH]; intros m t Ht; simpl in Ht.
  - lia.
  - destruct t as [|t]; simpl.
    + reflexivity.
    + rewrite IH by lia. reflexivity.
Qed.

Lemma expanding_max_nth (values : list Q) (t : nat) :
  (t < List.length values)%nat ->
  nth_error (expanding_max values) t = Some (running_max values t).
Proof.
  intros Ht. destruct values as [|x xs]; [simpl in Ht; lia|].
  destruct t as [|t]; [reflexivity|].
  simpl in Ht. unfold running_max. simpl.
  rewrite expanding_max_from_nth by lia. reflexivity.
Qed.

Lemma expanding_max_from_length (xs : list Q) (m : Q) :
  List.length (expanding_max_from m xs) = List.length xs.
Proof.
  revert m. induction xs as [|x xs IH]; intros m; simpl; auto.
Qed.

Lemma expanding_max_length (values : list Q) :
  List.length (expanding_max values) = List.length values.
Proof.
  destruct values; simpl; auto using expanding_max_from_length.
Qed.

Lemma drawdown_series_length (values maxima : list Q) :
  List.length maxima = List.length values ->
  List.length (drawdown_series values maxima) = List.length values.
Proof.
  revert maxima. induction values as [|v values IH]; intros [|m maxima];
    simpl; intros H; auto; try discriminate.
Qed.

Lemma drawdown_series_nth (values maxima : list Q) (t : nat) (v m : Q) :
  nth_error values t = Some v ->
  nth_error maxima t = Some m ->
  nth_error (drawdown_series values maxima) t = Some (fdiv (v - m) m).
Proof.
  revert maxima t. induction values as [|v0 values IH];
    intros [|m0 maxima] [|t]; simpl; try discriminate.
  - now intros [= ->] [= ->].
  - apply IH.
Qed.

(** The series the minimum is taken of, entry by entry. *)
Lemma drawdown_series_spec (values : list Q) :
  drawdown_series values (expanding_max values)
  = map (fun t => fdiv (nth t values 0 - running_max values t)
                    (running_max values t))
      (seq 0 (List.length values)).
Proof.
  apply nth_error_ext. intros t.
  destruct (Nat.lt_ge_cases t (List.length values)) as [Ht|Ht].
  - destruct (nth_error values t) as [v|] eqn:Hv.
    2:{ apply nth_error_None in Hv. lia. }
    rewrite (drawdown_series_nth values _ t v (running_max values t) Hv
               (expanding_max_nth values t Ht)).
    rewrite nth_error_map, nth_error_seq.
    apply Nat.ltb_lt in Ht. rewrite Ht. simpl.
    now rewrite (nth_error_nth _ _ 0 Hv).
  - transitivity (@None fval).
    + apply nth_error_None.
      rewrite drawdown_series_length; auto using expanding_max_length.
    + symmetry. apply nth_error_None. now rewrite length_map, length_seq.
Qed.

Lemma fold_fval_min_Fin (qs : list Q) (a : Q) :
  exists r,
    fold_left fval_min (map Fin qs) (Fin a) = Fin r
    /\ In r (a :: qs)
    /\ forall q, In q (a :: qs) -> r <= q.
Proof.
  revert a. induction qs as [|q qs IH]; intros a; simpl.
  - exists a. repeat split; auto. intros q [<-|[]]. lra.
  - case_Qle.
    + destruct (IH a) as (r & -> & Hin & Hlb). exists r.
      split; [reflexivity|]. split.
      * destruct Hin as [Hin|Hin]; [now left | now right; right].
      * intros x [<-|[<-|Hx]].
        -- apply Hlb. now left.
        -- apply Qle_trans with a; [|exact E]. apply Hlb. now left.
        -- apply Hlb. now right.
    + destruct (IH q) as (r & -> & Hin & Hlb). exists r.
      split; [reflexivity|]. split.
      * now right.
      * intros x [<-|Hx].
        -- apply Qle_trans with q; [|lra]. apply Hlb. now left.
        -- apply Hlb. exact Hx.
Qed.

Lemma series_min_Fin (qs : list Q) :
  qs <> [] ->
  exists r,
    series_min (map Fin qs) = Fin r /\ In r qs /\ forall q, In q qs -> r <= q.
Proof.
  destruct qs as [|a qs]; [congruence|]. intros _.
  unfold series_min. simpl. apply fold_fval_min_Fin.
Qed.

Lemma fdiv_nonzero (a b : Q) : ~ b == 0 -> fdiv a b = Fin (a / b).
Proof.
  intros Hb. unfold fdiv. destruct (Qeq_bool b 0) eqn:E; auto.
  apply Qeq_bool_iff in E. contradiction.
Qed.

Lemma max_drawdown_defined (values : list Q) :
  values <> [] ->
  (forall t, (t < List.length values)%nat -> ~ running_max values t == 0) ->
  exists r,
    _calculate_max_drawdown values = Fin r
    /\ (exists t, (t < List.length values)%nat /\ r = drawdown_at values t)
    /\ forall t, (t < List.length values)%nat -> r <= drawdown_at values t.
Proof.
  intros Hne Hnz. unfold _calculate_max_drawdown.
  rewrite drawdown_series_spec.
  rewrite (map_ext_in _ (fun t => Fin (drawdown_at values t))).
  2:{ intros t Ht. apply in_seq in Ht. apply fdiv_nonzero, Hnz. lia. }
  rewrite <- (map_map (drawdown_at values) Fin).
  destruct (series_min_Fin (map (drawdown_at values)
                              (seq 0 (List.length values))))
    as (r & Hr & Hin & Hlb).
  { destruct values; [congruence|discriminate]. }
  exists r. split; [exact Hr|]. split.
  - apply in_map_iff in Hin. destruct Hin as (t & <- & Ht).
    apply in_seq in Ht. exists t. split; [lia|reflexivity].
  - intros t Ht. apply Hlb. apply in_map. apply in_seq. lia.
Qed.

(** C7, as the code has it: the series whose minimum is returned holds, at
    [t], the quotient of [value[t] - runningMax[t]] by [runningMax[t]], where
    [runningMax[t]] is the maximum of the prefix; when no running maximum is
    zero the result is the least of these quotients.  On
    [100, 120, 90, 110] it is -0.25; on one nonzero point it is 0; on the
    empty series it is NaN. *)
Theorem max_drawdown_is_least_drawdown :
  (forall values,
     _calculate_max_drawdown values
     = series_min
         (map (fun t => fdiv (nth t values 0 - running_max values t)
                          (running_max values t))
            (seq 0 (List.length values)))
     /\ (forall t,
           (t < List.length values)%nat ->
           In (running_max values t) (firstn (Datatypes.S t) values)
           /\ forall v, In v (firstn (Datatypes.S t) values) ->
                        v <= running_max values t)
     /\ (values <> [] ->
         (forall t, (t < List.length values)%nat ->
                    ~ running_max values t == 0) ->
         exists r,
           _calculate_max_drawdown values = Fin r
           /\ (exists t, (t < List.length values)%nat
                         /\ r = drawdown_at values t)
           /\ forall t, (t < List.length values)%nat ->
                        r <= drawdown_at values t))
  /\ (exists r, _calculate_max_drawdown [100; 120; 90; 110] = Fin r
                /\ r == - (1 # 4))
  /\ (forall v, ~ v == 0 ->
        exists r, _calculate_max_drawdown [v] = Fin r /\ r == 0)
  /\ _calculate_max_drawdown [] = NaN.
Proof.
  split; [|split; [|split]].
  - intros values. split; [|split].
    + unfold _calculate_max_drawdown. now rewrite drawdown_series_spec.
    + intros t Ht. now apply running_max_is_prefix_max.
    + apply max_drawdown_defined.
  - eexists. split; reflexivity.
  - intros v Hv. unfold _calculate_max_drawdown. simpl.
    rewrite fdiv_nonzero by assumption.
    eexists. split; [reflexivity|]. field. exact Hv.
  - reflexivity.
Qed.

Lemma max_drawdown_is_least_drawdown_witness :
  exists r,
    _calculate_max_drawdown [100; 120; 90; 110] = Fin r
    /\ (exists t, (t < 4)%nat /\ r = drawdown_at [100; 120; 90; 110] t)
    /\ forall t, (t < 4)%nat -> r <= drawdown_at [100; 120; 90; 110] t.
Proof.
  destruct max_drawdown_is_least_drawdown as (Hgen & _).
  destruct (Hgen [100; 120; 90; 110]) as (_ & _ & Hmin).
  apply Hmin.
  - discriminate.
  - intros t Ht.
    do 4 (destruct t as [|t]; [vm_compute; discriminate|]).
    simpl in Ht. lia.
Defined.

(** C7, as stated, fails on the series without any point: the minimum of
    an empty drawdown series is NaN, not 0. *)
Lemma max_drawdown_of_empty_series_is_nan :
  (List.length (@nil Q) <= 1)%nat
  /\ _calculate_max_drawdown [] = NaN
  /\ ~ (exists r, _calculate_max_drawdown [] = Fin r /\ r == 0).
Proof.
  split; [simpl; lia|]. split; [reflexivity|].
  intros (r & H & _). discriminate H.
Qed.

(** ** Sharpe ratio *)

Module SharpeFacts.

Import Sharpe.
Local Open Scope R_scope.

Lemma sum_R_repeat (c : R) (n : nat) : sum_R (repeat c n) = INR n * c.
Proof.
  induction n as [|n IH].
  - simpl. ring.
  - rewrite S_INR. simpl. rewrite IH. ring.
Qed.

(** A series of at least two equal returns has standard deviation 0. *)
Lemma std_constant (c : R) (n : nat) :
  (2 <= n)%nat -> std (repeat c n) = Some 0.
Proof.
  intros Hn. destruct n as [|[|k]]; try lia.
  set (n := Datatypes.S (Datatypes.S k)).
  assert (Hnz : INR n <> 0) by (apply not_0_INR; discriminate).
  change (std (repeat c n)) with
    (Some (sqrt (sum_R (map (fun x => (x - sum_R (repeat c n)
                                             / INR (List.length (repeat c n)))
                                      * (x - sum_R (repeat c n)
                                             / INR (List.length (repeat c n))))
                          (repeat c n))
                 / (INR (List.length (repeat c n)) - 1)))).
  rewrite repeat_length, sum_R_repeat, map_repeat, sum_R_repeat.
  replace (INR n * c / INR n) with c by (field; exact Hnz).
  replace (INR n * ((c - c) * (c - c)) / (INR n - 1)) with 0
    by (unfold Rdiv; ring).
  now rewrite sqrt_0.
Qed.

Lemma mean_map_nonempty (f : R -> R) (xs : list R) :
  xs <> [] ->
  mean (map f xs) = Some (sum_R (map f xs) / INR (List.length xs)).
Proof.
  destruct xs as [|x xs]; [congruence|]. intros _.
  unfold mean. cbn [map List.length]. now rewrite length_map.
Qed.

Lemma length_eqb_0 {A : Type} (xs : list A) :
  xs <> [] -> (List.length xs =? 0)%nat = false.
Proof. destruct xs; [congruence|reflexivity]. Qed.

End SharpeFacts.

Module FloatSharpeFacts.

Import FloatSharpe.

Lemma collect_Some (l : list R) : collect (map Some l) = Some l.
Proof. induction l as [|x l IH]; simpl; [reflexivity|now rewrite IH]. Qed.



End FloatSharpeFacts.


(** * Further properties of the ledger *)

Lemma execute_trade_some (S : Strategy) (st : Ledger) (signal : Signal)
    (price : Q) (ts : datetime) (sym : string) :
  signal <> HOLD ->
  0 < calculate_position_size S st signal price (current_balance st) ->
  exists t, snd (execute_trade S st signal price ts sym) = Some t.
Proof.
  intros Hs Hq. unfold execute_trade. apply Qle_bool_false in Hq.
  destruct signal; try congruence; simpl; rewrite Hq.
  - eexists. reflexivity.
  - destruct (execute_sell _ _ _ _ _) as [st' t']. eexists. reflexivity.
Qed.

(** X1: [execute_trade] returns nothing exactly when the signal is [HOLD]
    or the size computed by the strategy is not positive, and then the
    ledger is left as it was. *)
Theorem execute_trade_returns_none_iff (S : Strategy) (st : Ledger)
    (signal : Signal) (price : Q) (ts : datetime) (sym : string) :
  (snd (execute_trade S st signal price ts sym) = None
   <-> signal = HOLD
       \/ calculate_position_size S st signal price (current_balance st) <= 0)
  /\ (snd (execute_trade S st signal price ts sym) = None ->
      fst (execute_trade S st signal price ts sym) = st).
Proof.
  split.
  - split.
    + intros Hn.
      destruct (Signal_eqb signal HOLD) eqn:Eh.
      { left. destruct signal; (discriminate || reflexivity). }
      right. apply Qnot_lt_le. intros Hq.
      destruct (execute_trade_some S st signal price ts sym) as (t & Ht);
        auto; try congruence.
      intros ->. discriminate.
    + intros [->|Hq]; [reflexivity|].
      unfold execute_trade. apply Qle_bool_iff in Hq. rewrite Hq.
      destruct (Signal_eqb signal HOLD); reflexivity.
  - intros Hn.
    pose proof (execute_trade_history S st signal price ts sym) as H.
    rewrite Hn in H. exact H.
Qed.

Lemma execute_trades_history (S : Strategy) (calls : list Call)
    (st : Ledger) :
  exists new,
    trades (execute_trades S st calls) = trades st ++ new
    /\ (List.length new <= List.length calls)%nat.
Proof.
  unfold execute_trades. revert st.
  induction calls as [|c calls IH]; intros st; simpl.
  - exists []. split; [now rewrite app_nil_r | simpl; lia].
  - destruct (IH (execute_call S st c)) as (new & Hnew & Hlen).
    unfold execute_call in *.
    pose proof (execute_trade_history S st (call_signal c) (call_price c)
                  (call_timestamp c) (call_symbol c)) as H.
    destruct (execute_trade S st _ _ _ _) as [st' [t|]]; simpl in *.
    + exists (t :: new). rewrite Hnew, H, <- app_assoc. simpl.
      split; [reflexivity|lia].
    + subst st'. exists new. split; [assumption|lia].
Qed.

(** X2: the history is append-only: after any sequence of calls the old
    history is a prefix of the new one, which has grown by at most one trade
    per call. *)
Theorem history_is_append_only (S : Strategy) (st : Ledger)
    (calls : list Call) :
  firstn (List.length (trades st)) (trades (execute_trades S st calls))
  = trades st
  /\ (List.length (trades st)
      <= List.length (trades (execute_trades S st calls))
      <= List.length (trades st) + List.length calls)%nat.
Proof.
  destruct (execute_trades_history S calls st) as (new & -> & Hlen).
  rewrite firstn_app, firstn_all, Nat.sub_diag, length_app. simpl.
  rewrite app_nil_r. split; [reflexivity|lia].
Qed.

Lemma py_min_positive (a b : Q) : 0 < a -> 0 < b -> 0 < py_min a b.
Proof. intros Ha Hb. unfold py_min. destruct (Qle_bool a b); assumption. Qed.

Lemma py_min_le_r (a b : Q) : py_min a b <= b.
Proof. unfold py_min. case_Qle; lra. Qed.

Lemma execute_trade_records_positive (S : Strategy) (st : Ledger)
    (signal : Signal) (price : Q) (ts : datetime) (sym : string) (t : Trade) :
  ledger_inv st ->
  snd (execute_trade S st signal price ts sym) = Some t ->
  recorded_trade t.
Proof.
  intros Hinv. unfold execute_trade.
  destruct signal; simpl; try discriminate; case_Qle; try discriminate.
  - intros [= <-]. split; [exact E|discriminate].
  - unfold execute_sell.
    destruct (Dict.get sym (positions st)) as [p|] eqn:Hget.
    + intros [= <-]. split; [|discriminate]. simpl.
      apply py_min_positive; [exact E|].
      exact (held_quantity_positive st sym p Hinv Hget).
    + intros [= <-]. split; [exact E|discriminate].
Qed.

(** X3: while the ledger invariant holds, every trade that enters the
    history has a positive quantity (a sell is clamped to a positive holding)
    and is a buy or a sell. *)
Theorem history_holds_positive_trades (S : Strategy) (st : Ledger)
    (calls : list Call) :
  ledger_inv st ->
  Forall recorded_trade (trades st) ->
  Forall recorded_trade (trades (execute_trades S st calls)).
Proof.
  unfold execute_trades. revert st.
  induction calls as [|c calls IH]; intros st Hinv Hall; simpl.
  - assumption.
  - apply IH.
    + unfold execute_call. now apply execute_trade_inv.
    + unfold execute_call.
      pose proof (execute_trade_history S st (call_signal c) (call_price c)
                    (call_timestamp c) (call_symbol c)) as H.
      pose proof (execute_trade_records_positive S st (call_signal c)
                    (call_price c) (call_timestamp c) (call_symbol c)) as Hp.
      destruct (execute_trade S st _ _ _ _) as [st' [t|]]; simpl in *.
      * rewrite H. apply Forall_app. split; [assumption|].
        constructor; [|constructor]. now apply Hp.
      * now subst st'.
Qed.

Lemma history_holds_positive_trades_witness :
  Forall recorded_trade
    (trades (execute_trades (SMACrossoverStrategy 20 50 (1 # 10))
               (new_ledger 10000)
               [mkCall BUY 100 0%Z "BTC/USDT";
                mkCall SELL 120 1%Z "BTC/USDT"])).
Proof.
  apply (history_holds_positive_trades (SMACrossoverStrategy 20 50 (1 # 10))
           (new_ledger 10000)).
  - apply ledger_inv_new.
  - constructor.
Defined.

Lemma execute_trade_cash_nonnegative (S : Strategy) (st : Ledger)
    (signal : Signal) (price : Q) (ts : datetime) (sym : string) :
  ledger_inv st ->
  0 <= price ->
  0 <= current_balance st ->
  0 <= current_balance (fst (execute_trade S st signal price ts sym)).
Proof.
  intros Hinv Hp Hc. unfold execute_trade.
  destruct signal; simpl; try assumption; case_Qle; simpl; try assumption.
  - unfold execute_buy. case_Qle; simpl; [|assumption].
    destruct (Dict.get sym (positions st)); simpl; lra.
  - unfold execute_sell.
    destruct (Dict.get sym (positions st)) as [p|] eqn:Hget; simpl;
      [|assumption].
    pose proof (held_quantity_positive st sym p Hinv Hget) as Hq.
    pose proof (py_min_positive _ _ E Hq) as Hm.
    assert (0 <= price * py_min
                    (calculate_position_size S st SELL price
                       (current_balance st)) (quantity p)).
    { apply Qmult_le_0_compat; lra. }
    lra.
Qed.

(** X4: [execute_trade] never overdraws: from a ledger that satisfies the
    invariant and has non-negative cash, calls at non-negative prices leave
    non-negative cash (a buy that costs more than the cash is not
    executed). *)
Theorem execute_trades_never_overdraw (S : Strategy) (st : Ledger)
    (calls : list Call) :
  ledger_inv st ->
  0 <= current_balance st ->
  Forall (fun c => 0 <= call_price c) calls ->
  0 <= current_balance (execute_trades S st calls).
Proof.
  unfold execute_trades. revert st.
  induction calls as [|c calls IH]; intros st Hinv Hc Hp; simpl.
  - assumption.
  - inversion Hp; subst. apply IH; auto.
    + unfold execute_call. now apply execute_trade_inv.
    + unfold execute_call. now apply execute_trade_cash_nonnegative.
Qed.

Lemma execute_trades_never_overdraw_witness :
  0 <= current_balance
         (execute_trades (SMACrossoverStrategy 20 50 2) (new_ledger 10000)
            [mkCall BUY 100 0%Z "BTC/USDT"; mkCall SELL 90 1%Z "BTC/USDT"]).
Proof.
  apply (execute_trades_never_overdraw (SMACrossoverStrategy 20 50 2)
           (new_ledger 10000)).
  - apply ledger_inv_new.
  - discriminate.
  - repeat constructor; discriminate.
Defined.

(** ** The two executed branches, as equations *)

Lemma execute_trade_buy (S : Strategy) (st : Ledger) (price : Q)
    (ts : datetime) (sym : string) :
  let qty := calculate_position_size S st BUY price (current_balance st) in
  0 < qty ->
  execute_trade S st BUY price ts sym
  = (append_trade (execute_buy st price qty ts sym)
       (requested_trade S st BUY price ts),
     Some (requested_trade S st BUY price ts)).
Proof.
  intros qty Hq. unfold execute_trade. fold qty.
  apply Qle_bool_false in Hq. rewrite Hq. reflexivity.
Qed.

Lemma execute_trade_sell (S : Strategy) (st : Ledger) (price : Q)
    (ts : datetime) (sym : string) :
  let qty := calculate_position_size S st SELL price (current_balance st) in
  0 < qty ->
  execute_trade S st SELL price ts sym
  = (append_trade
       (fst (execute_sell st (requested_trade S st SELL price ts) price qty
               sym))
       (snd (execute_sell st (requested_trade S st SELL price ts) price qty
               sym)),
     Some (snd (execute_sell st (requested_trade S st SELL price ts) price
                  qty sym))).
Proof.
  intros qty Hq. unfold execute_trade. fold qty.
  apply Qle_bool_false in Hq. rewrite Hq. simpl.
  fold (requested_trade S st SELL price ts).
  destruct (execute_sell _ _ _ _ _). reflexivity.
Qed.

Lemma execute_buy_affordable (st : Ledger) (price qty : Q) (ts : datetime)
    (sym : string) :
  price * qty <= current_balance st ->
  execute_buy st price qty ts sym
  = set_positions (set_balance st (current_balance st - price * qty))
      (Dict.set sym
         match Dict.get sym (positions st) with
         | Some existing =>
             mkPosition sym (quantity existing + qty)
               ((entry_price existing * quantity existing + price * qty)
                / (quantity existing + qty))
               (entry_time existing) price 0
         | None => mkPosition sym qty price ts price 0
         end
         (positions st)).
Proof.
  intros Hle. unfold execute_buy. apply Qle_bool_iff in Hle. rewrite Hle.
  simpl. destruct (Dict.get sym (positions st)); reflexivity.
Qed.

Lemma execute_sell_all (st : Ledger) (trade : Trade) (price : Q)
    (sym : string) (p : Position) :
  Dict.get sym (positions st) = Some p ->
  execute_sell st trade price (quantity p) sym
  = (set_positions (set_balance st (current_balance st + price * quantity p))
       (Dict.del sym (positions st)),
     with_trade_quantity trade (quantity p)).
Proof.
  intros Hget. unfold execute_sell. rewrite Hget.
  assert (Hmin : py_min (quantity p) (quantity p) = quantity p).
  { unfold py_min. destruct (Qle_bool _ _); reflexivity. }
  rewrite Hmin. simpl.
  assert (Hz : Qle_bool (quantity p - quantity p) 0 = true).
  { apply Qle_bool_iff. lra. }
  now rewrite Hz.
Qed.

(** X5: an affordable buy (positive size, cost not above the cash) on a
    ledger that satisfies the invariant is executed as follows: the trade
    with the computed size is returned and appended, the cash is debited by
    price times size, and the position of the symbol becomes, when one was
    held, the old one with the two quantities added, the entry price
    recomputed as (old entry price x old quantity + cost) / new quantity, the
    old entry time and the trade price as current price, and otherwise a new
    position of that size entered at the trade price and time; no other
    position changes. *)
Theorem buy_averages_entry_price (S : Strategy) (st : Ledger) (price : Q)
    (ts : datetime) (sym : string) :
  let qty := calculate_position_size S st BUY price (current_balance st) in
  let st' := fst (execute_trade S st BUY price ts sym) in
  ledger_inv st ->
  0 < qty ->
  price * qty <= current_balance st ->
  snd (execute_trade S st BUY price ts sym)
    = Some (mkTrade ts BUY price qty "Signal: buy")
  /\ trades st' = trades st ++ [mkTrade ts BUY price qty "Signal: buy"]
  /\ current_balance st' = current_balance st - price * qty
  /\ Dict.get sym (positions st')
     = Some match Dict.get sym (positions st) with
            | Some existing =>
                mkPosition sym (quantity existing + qty)
                  ((entry_price existing * quantity existing + price * qty)
                   / (quantity existing + qty))
                  (entry_time existing) price 0
            | None => mkPosition sym qty price ts price 0
            end
  /\ (forall existing, Dict.get sym (positions st) = Some existing ->
                       0 < quantity existing + qty)
  /\ (forall k, k <> sym ->
        Dict.get k (positions st') = Dict.get k (positions st)).
Proof.
  intros qty st' Hinv Hq Hcost. subst st'.
  rewrite execute_trade_buy by exact Hq. fold qty. cbn [fst snd].
  rewrite execute_buy_affordable by exact Hcost.
  split; [reflexivity|]. split; [reflexivity|]. split; [reflexivity|].
  simpl. split; [apply DictFacts.get_set_eq|]. split.
  - intros existing Hget.
    pose proof (held_quantity_positive st sym existing Hinv Hget). lra.
  - intros k Hk. apply DictFacts.get_set_ne. congruence.
Qed.

Lemma buy_averages_entry_price_witness :
  let S := SMACrossoverStrategy 20 50 (1 # 2) in
  let st :=
    mkLedger 10000 1200
      [("BTC/USDT"%string, mkPosition "BTC/USDT" 2 100 0%Z 100 0)] [] in
  Dict.get "BTC/USDT"%string
    (positions (fst (execute_trade S st BUY 200 1%Z "BTC/USDT")))
  = Some (mkPosition "BTC/USDT" (2 + 1200 * (1 # 2) / 200)
            ((100 * 2 + 200 * (1200 * (1 # 2) / 200))
             / (2 + 1200 * (1 # 2) / 200))
            0%Z 200 0).
Proof.
  intros S st.
  destruct (buy_averages_entry_price S st 200 1%Z "BTC/USDT")
    as (_ & _ & _ & Hp & _).
  - split; simpl.
    + constructor; [intros []|constructor].
    + constructor; [reflexivity|constructor].
  - reflexivity.
  - discriminate.
  - exact Hp.
Defined.

(** X6: a call of [execute_trade] for a symbol touches no other symbol:
    whatever the signal and the strategy, the position of every other symbol
    is what it was, and so is the initial balance. *)
Theorem execute_trade_touches_only_its_symbol (S : Strategy) (st : Ledger)
    (signal : Signal) (price : Q) (ts : datetime) (sym : string) :
  let st' := fst (execute_trade S st signal price ts sym) in
  (forall k, k <> sym ->
     Dict.get k (positions st') = Dict.get k (positions st))
  /\ initial_balance st' = initial_balance st.
Proof.
  intros st'. split; [|apply execute_trade_initial_balance].
  intros k Hk. subst st'. unfold execute_trade.
  destruct signal; simpl; try reflexivity; case_Qle; simpl; try reflexivity.
  - unfold execute_buy. case_Qle; simpl; [|reflexivity].
    destruct (Dict.get sym (positions st)); simpl;
      apply DictFacts.get_set_ne; congruence.
  - unfold execute_sell.
    destruct (Dict.get sym (positions st)); simpl; [|reflexivity].
    case_Qle.
    + apply DictFacts.get_del_ne. congruence.
    + apply DictFacts.get_set_ne. congruence.
Qed.

(** * Further properties of the SMA crossover strategy *)

Section SMA_trading.

Variables short_window long_window : nat.
Variable position_size_pct : Q.

Local Abbreviation sma :=
  (SMACrossoverStrategy short_window long_window position_size_pct).

Lemma sma_sell_size (st : Ledger) (price : Q) (p : Position) :
  Dict.get "BTC/USDT"%string (positions st) = Some p ->
  calculate_position_size sma st SELL price (current_balance st) = quantity p.
Proof.
  intros Hget. simpl. unfold sma_calculate_position_size. now rewrite Hget.
Qed.

(** X8: a sell of ["BTC/USDT"] by the SMA strategy closes the whole
    position: the trade carries the quantity held, the cash is credited with
    the price times that quantity, and the position is gone. *)
Theorem sma_sell_closes_position (st : Ledger) (price : Q) (ts : datetime)
    (p : Position) :
  let st' := fst (execute_trade sma st SELL price ts "BTC/USDT") in
  Dict.get "BTC/USDT"%string (positions st) = Some p ->
  0 < quantity p ->
  snd (execute_trade sma st SELL price ts "BTC/USDT")
    = Some (mkTrade ts SELL price (quantity p) "Signal: sell")
  /\ current_balance st' = current_balance st + price * quantity p
  /\ Dict.get "BTC/USDT"%string (positions st') = None
  /\ (forall k, k <> "BTC/USDT"%string ->
        Dict.get k (positions st') = Dict.get k (positions st)).
Proof.
  intros st' Hget Hq. subst st'.
  pose proof (sma_sell_size st price p Hget) as Eq.
  rewrite execute_trade_sell by (rewrite Eq; exact Hq).
  unfold requested_trade. rewrite Eq. cbn [fst snd].
  rewrite (execute_sell_all st _ price "BTC/USDT" p Hget). simpl.
  repeat split.
  - apply DictFacts.get_del_eq.
  - intros k Hk. apply DictFacts.get_del_ne. congruence.
Qed.

End SMA_trading.

Lemma sma_sell_closes_position_witness :
  let st :=
    mkLedger 10000 9000
      [("BTC/USDT"%string, mkPosition "BTC/USDT" 10 100 0%Z 100 0)] [] in
  current_balance
    (fst (execute_trade (SMACrossoverStrategy 20 50 (1 # 10)) st SELL 120
            1%Z "BTC/USDT"))
  = 9000 + 120 * 10.
Proof.
  intros st.
  apply (sma_sell_closes_position 20 50 (1 # 10) st 120 1%Z
           (mkPosition "BTC/USDT" 10 100 0%Z 100 0)); reflexivity.
Defined.

(** ** Signals of the SMA crossover strategy *)

Lemma opt_le_lt_false (a b : option Q) : opt_le a b && opt_lt b a = false.
Proof.
  destruct a as [x|], b as [y|]; simpl; auto.
  destruct (Qle_bool x y); reflexivity.
Qed.

Lemma opt_le_None_r (a : option Q) : opt_le a None = false.
Proof. destruct a; reflexivity. Qed.

Lemma rolling_mean_early (w : nat) (xs : list Q) (i : nat) :
  (i + 1 < w)%nat -> rolling_mean w xs i = None.
Proof.
  intros H. unfold rolling_mean. destruct (w =? 0)%nat; [reflexivity|].
  apply Nat.ltb_lt in H. now rewrite H.
Qed.

Lemma sma_hold_within_window (short_window long_window : nat)
    (ohlcv_data : list Bar) :
  (List.length ohlcv_data <= long_window)%nat ->
  sma_generate_signal short_window long_window ohlcv_data = HOLD.
Proof.
  intros Hlen. unfold sma_generate_signal.
  destruct (List.length ohlcv_data <? long_window)%nat eqn:E; [reflexivity|].
  apply Nat.ltb_ge in E.
  assert (En : List.length ohlcv_data = long_window) by lia.
  rewrite En. destruct long_window as [|k]; [reflexivity|].
  cbv zeta. destruct (1 <? Datatypes.S k)%nat eqn:E1.
  - apply Nat.ltb_lt in E1.
    rewrite (rolling_mean_early (Datatypes.S k) _ (Datatypes.S k - 2))
      by lia.
    rewrite opt_le_None_r. simpl. reflexivity.
  - now rewrite !opt_le_lt_false.
Qed.

(** X10: with windows of at least one bar, the SMA strategy holds as long
    as it has seen no more than [long_window] bars: below the window by the
    explicit test, and on the bar that fills the window because the previous
    long average is not defined yet, so that neither cross can be
    detected. *)
Theorem sma_holds_until_window_is_exceeded (short_window long_window : nat)
    (position_size_pct : Q) (st : Ledger) (ohlcv_data : list Bar) :
  (1 <= short_window)%nat ->
  (1 <= long_window)%nat ->
  (List.length ohlcv_data <= long_window)%nat ->
  generate_signal
    (SMACrossoverStrategy short_window long_window position_size_pct) st
    ohlcv_data = HOLD.
Proof. intros _ _ H. simpl. now apply sma_hold_within_window. Qed.

Lemma sma_holds_until_window_is_exceeded_witness :
  generate_signal (SMACrossoverStrategy 1 2 (1 # 10)) (new_ledger 10000)
    (bars_of_closes [1; 1000]) = HOLD.
Proof.
  apply (sma_holds_until_window_is_exceeded 1 2 (1 # 10) (new_ledger 10000)
           (bars_of_closes [1; 1000])); simpl; lia.
Defined.

Lemma sum_Q_const (xs : list Q) (c : Q) :
  Forall (fun x => x == c) xs ->
  sum_Q xs == inject_Z (Z.of_nat (List.length xs)) * c.
Proof.
  induction 1 as [|x xs Hx Hxs IH].
  - rewrite sum_Q_nil. simpl. ring.
  - cbv beta in Hx.
    change (List.length (x :: xs)) with (Datatypes.S (List.length xs)).
    rewrite sum_Q_cons, IH, Hx.
    rewrite Nat2Z.inj_succ. unfold Z.succ. rewrite inject_Z_plus. ring.
Qed.

Lemma Forall_window {A : Type} (P : A -> Prop) (xs : list A) (k w : nat) :
  Forall P xs -> Forall P (firstn w (skipn k xs)).
Proof.
  intros H.
  rewrite <- (firstn_skipn k xs) in H. apply Forall_app in H as [_ H].
  rewrite <- (firstn_skipn w (skipn k xs)) in H.
  now apply Forall_app in H as [H _].
Qed.

Lemma rolling_mean_flat (w : nat) (xs : list Q) (i : nat) (c m : Q) :
  Forall (fun x => x == c) xs ->
  rolling_mean w xs i = Some m ->
  m == c.
Proof.
  intros Hall. unfold rolling_mean.
  destruct (w =? 0)%nat eqn:E0; [discriminate|].
  destruct (i + 1 <? w)%nat eqn:E1; [discriminate|].
  destruct (List.length xs <=? i)%nat eqn:E2; [discriminate|].
  apply Nat.eqb_neq in E0. apply Nat.ltb_ge in E1. apply Nat.leb_gt in E2.
  intros [= <-].
  rewrite (sum_Q_const _ c) by now apply Forall_window.
  rewrite length_firstn, length_skipn.
  replace (Nat.min w (List.length xs - (i + 1 - w))) with w by lia.
  field. intros H.
  apply (proj1 (inject_Z_injective (Z.of_nat w) 0)) in H. lia.
Qed.

Lemma opt_lt_flat (a b : option Q) (c : Q) :
  (forall x, a = Some x -> x == c) ->
  (forall y, b = Some y -> y == c) ->
  opt_lt a b = false.
Proof.
  intros Ha Hb. destruct a as [x|], b as [y|]; simpl; auto.
  assert (Hle : y <= x).
  { rewrite (Ha x eq_refl), (Hb y eq_refl). lra. }
  apply Qle_bool_iff in Hle. now rewrite Hle.
Qed.

(** X11: on a flat market, where every close seen so far has the same
    value, the two averages never cross and the strategy holds, whatever the
    windows (of at least one bar). *)
Theorem sma_holds_on_flat_prices (short_window long_window : nat)
    (ohlcv_data : list Bar) (c : Q) :
  (1 <= short_window)%nat ->
  (1 <= long_window)%nat ->
  Forall (fun bar => close bar == c) ohlcv_data ->
  sma_generate_signal short_window long_window ohlcv_data = HOLD.
Proof.
  intros _ _ Hall. unfold sma_generate_signal.
  destruct (_ <? long_window)%nat; [reflexivity|].
  destruct (List.length ohlcv_data) as [|k]; [reflexivity|].
  cbv zeta.
  assert (Hc : Forall (fun x => x == c) (map close ohlcv_data)).
  { apply Forall_map. exact Hall. }
  rewrite (opt_lt_flat (rolling_mean long_window _ _)
             (rolling_mean short_window _ _) c),
          (opt_lt_flat (rolling_mean short_window _ _)
             (rolling_mean long_window _ _) c);
    try (intros x Hx; exact (rolling_mean_flat _ _ _ c x Hc Hx)).
  now rewrite !andb_false_r.
Qed.

Lemma sma_holds_on_flat_prices_witness :
  sma_generate_signal 2 3 (bars_of_closes [7; 7; 7; 7; 7]) = HOLD.
Proof.
  apply (sma_holds_on_flat_prices 2 3 (bars_of_closes [7; 7; 7; 7; 7]) 7).
  - lia.
  - lia.
  - repeat constructor.
Defined.

(** * Further properties of valuation and of the metrics *)

Lemma refresh_fst (current_prices : Dict.t Q) (kv : string * Position) :
  fst (refresh current_prices kv) = fst kv.
Proof.
  unfold refresh. destruct (Dict.get (fst kv) current_prices); reflexivity.
Qed.

Lemma refresh_quantity (current_prices : Dict.t Q) (kv : string * Position) :
  quantity (snd (refresh current_prices kv)) = quantity (snd kv).
Proof.
  unfold refresh. destruct (Dict.get (fst kv) current_prices); reflexivity.
Qed.

Lemma get_portfolio_value_positions (st : Ledger)
    (current_prices : Dict.t Q) :
  positions (fst (get_portfolio_value st current_prices))
  = map (refresh current_prices) (positions st).
Proof.
  unfold get_portfolio_value.
  pose proof (value_loop_spec (positions st) current_prices
                (current_balance st)) as [Hps _].
  destruct (value_loop _ _ _) as [ps v]. exact Hps.
Qed.

Lemma get_portfolio_value_balance (st : Ledger) (current_prices : Dict.t Q) :
  current_balance (fst (get_portfolio_value st current_prices))
  = current_balance st.
Proof.
  unfold get_portfolio_value.
  destruct (value_loop _ _ _) as [ps v]. reflexivity.
Qed.

Lemma get_portfolio_value_inv (st : Ledger) (current_prices : Dict.t Q) :
  ledger_inv st -> ledger_inv (fst (get_portfolio_value st current_prices)).
Proof.
  intros [Hnd Hall]. unfold ledger_inv.
  rewrite get_portfolio_value_positions. split.
  - unfold Dict.keys in *. rewrite map_map.
    rewrite (map_ext _ fst); [exact Hnd|].
    intros kv. apply refresh_fst.
  - apply Forall_map. eapply Forall_impl; [|exact Hall].
    intros kv Hkv. unfold positive_quantity in *.
    now rewrite refresh_quantity.
Qed.

Lemma value_loop_again (ps : Dict.t Position) (current_prices : Dict.t Q)
    (acc : Q) :
  value_loop (fst (value_loop ps current_prices acc)) current_prices acc
  = value_loop ps current_prices acc.
Proof.
  assert (H : forall acc acc',
             fst (value_loop ps current_prices acc)
             = fst (value_loop ps current_prices acc')).
  { induction ps as [|[k p] ps IH]; intros a a'; simpl; [reflexivity|].
    destruct (Dict.get k current_prices) as [price|].
    - specialize (IH (a + quantity p * price) (a' + quantity p * price)).
      destruct (value_loop ps current_prices (a + _)) as [ps1 v1].
      destruct (value_loop ps current_prices (a' + _)) as [ps2 v2].
      simpl in *. now rewrite IH.
    - specialize (IH a a').
      destruct (value_loop ps current_prices a) as [ps1 v1].
      destruct (value_loop ps current_prices a') as [ps2 v2].
      simpl in *. now rewrite IH. }
  clear H. revert acc.
  induction ps as [|[k p] ps IH]; intros acc; simpl; [reflexivity|].
  destruct (Dict.get k current_prices) as [price|] eqn:Hget.
  - specialize (IH (acc + quantity p * price)).
    destruct (value_loop ps current_prices (acc + _)) as [ps1 v1] eqn:E.
    simpl in *. rewrite Hget. simpl. now rewrite IH.
  - specialize (IH acc).
    destruct (value_loop ps current_prices acc) as [ps1 v1] eqn:E.
    simpl in *. rewrite Hget. now rewrite IH.
Qed.

Lemma get_portfolio_value_is_idempotent_aux (st : Ledger)
    (current_prices : Dict.t Q) :
  get_portfolio_value (fst (get_portfolio_value st current_prices))
    current_prices
  = get_portfolio_value st current_prices.
Proof.
  unfold get_portfolio_value.
  pose proof (value_loop_again (positions st) current_prices
                (current_balance st)) as H.
  destruct (value_loop (positions st) _ _) as [ps v]. simpl in *.
  rewrite H. reflexivity.
Qed.

(** X12: valuing twice at the same prices is valuing once: the second
    call returns the same value and leaves the ledger as the first one left
    it. *)
Theorem get_portfolio_value_is_idempotent (st : Ledger)
    (current_prices : Dict.t Q) :
  get_portfolio_value (fst (get_portfolio_value st current_prices))
    current_prices
  = get_portfolio_value st current_prices.
Proof.
  unfold get_portfolio_value.
  pose proof (value_loop_again (positions st) current_prices
                (current_balance st)) as H.
  destruct (value_loop (positions st) _ _) as [ps v]. simpl in *.
  rewrite H. reflexivity.
Qed.

(** * Further properties of the replay loop *)

Section Run_more.

Variable S : Strategy.
Variable commission_rate : Q.
Variable sym : string.

Local Abbreviation step_trade := (trade_step S commission_rate sym).
Local Abbreviation step_bar := (bar_step S commission_rate sym).
Local Abbreviation replay_from := (replay S commission_rate sym).
Local Abbreviation run := (run_backtest S commission_rate sym).

Lemma trade_step_inv (st : Ledger) (signal : Signal) (row : Bar) :
  ledger_inv st -> ledger_inv (fst (step_trade st signal row)).
Proof.
  intros Hinv. unfold trade_step.
  pose proof (execute_trade_inv S st signal (close row) (timestamp row) sym
                Hinv) as H.
  destruct signal; try assumption.
  - destruct (execute_trade S st BUY _ _ _) as [st' [t|]]; exact H.
  - destruct (execute_trade S st SELL _ _ _) as [st' [t|]]; exact H.
Qed.

Lemma bar_step_ledger (current_data : list Bar) (row : Bar)
    (ls : LoopState) :
  ls_ledger (step_bar current_data row ls)
  = fst (get_portfolio_value
           (fst (step_trade (ls_ledger ls)
                   (generate_signal S (ls_ledger ls) current_data) row))
           [(sym, close row)]).
Proof.
  unfold bar_step.
  destruct (trade_step S commission_rate sym (ls_ledger ls) _ row)
    as [st1 debited].
  cbn [fst]. destruct (get_portfolio_value st1 _) as [st2 v]. reflexivity.
Qed.

Lemma replay_inv (seen rest : list Bar) (ls : LoopState) :
  ledger_inv (ls_ledger ls) ->
  ledger_inv (ls_ledger (replay_from seen rest ls)).
Proof.
  revert seen ls. induction rest as [|row rest IH]; intros seen ls Hinv.
  - exact Hinv.
  - simpl. apply IH. rewrite bar_step_ledger.
    now apply get_portfolio_value_inv, trade_step_inv.
Qed.

(** X14: the engine keeps the ledger invariant too: after any number of
    bars, with their trades, commissions and valuations, the positions still
    hold one entry per symbol, each with a positive quantity. *)
Theorem run_keeps_positions_positive (st : Ledger) (ohlcv_data : list Bar)
    (r : BacktestResult) :
  ledger_inv st ->
  run st ohlcv_data = inr r ->
  ledger_inv (r_strategy r)
  /\ ledger_inv (ls_ledger (replay_from [] ohlcv_data (init_loop st))).
Proof.
  intros Hinv Hrun.
  assert (Hls : ledger_inv
                  (ls_ledger (replay_from [] ohlcv_data (init_loop st)))).
  { now apply replay_inv. }
  split; [|exact Hls].
  unfold run_backtest in Hrun.
  destruct ohlcv_data as [|row rest]; [discriminate|].
  set (ls := replay_from [] (row :: rest) (init_loop st)) in *.
  unfold get_performance_metrics in Hrun.
  pose proof (get_portfolio_value_inv (ls_ledger ls)
                [(sym, last (map close (row :: rest)) 0)] Hls) as H.
  destruct (get_portfolio_value (ls_ledger ls) _) as [st' v].
  destruct (Qeq_bool (initial_balance st') 0); [discriminate|].
  injection Hrun as <-. exact H.
Qed.

(** X15: a bar at which no trade is returned (the signal is [HOLD], or
    [execute_trade] returns nothing) costs nothing: no commission is debited,
    cash and history are what they were, the ledger is only revalued at the
    bar's close, and the value appended is that valuation of the ledger as
    the bar found it. *)
Theorem bar_without_trade_only_revalues (current_data : list Bar)
    (row : Bar) (ls : LoopState) :
  let st := ls_ledger ls in
  let signal := generate_signal S st current_data in
  let ls' := step_bar current_data row ls in
  signal = HOLD
  \/ snd (execute_trade S st signal (close row) (timestamp row) sym) = None ->
  ls_ledger ls' = fst (get_portfolio_value st [(sym, close row)])
  /\ ls_portfolio_values ls'
     = ls_portfolio_values ls
       ++ [snd (get_portfolio_value st [(sym, close row)])]
  /\ ls_signals ls' = ls_signals ls ++ [Signal_value signal]
  /\ ls_commissions ls' = ls_commissions ls
  /\ current_balance (ls_ledger ls') = current_balance st
  /\ trades (ls_ledger ls') = trades st.
Proof.
  intros st signal ls' Hno.
  assert (Hstep : step_trade st signal row = (st, [])).
  { unfold trade_step. destruct Hno as [->|Hnone]; [reflexivity|].
    pose proof (execute_trade_history S st signal (close row)
                  (timestamp row) sym) as H.
    rewrite Hnone in H.
    destruct (execute_trade S st signal _ _ _) as [st1 t] eqn:E.
    simpl in *. subst. destruct signal; reflexivity. }
  subst ls'. unfold bar_step. fold st. fold signal. rewrite Hstep.
  pose proof (get_portfolio_value_balance st [(sym, close row)]) as Hb.
  pose proof (get_portfolio_value_trades st [(sym, close row)]) as Ht.
  destruct (get_portfolio_value st _) as [st2 v]. simpl in *.
  rewrite app_nil_r. repeat split; assumption.
Qed.

Lemma replay_last (seen before : list Bar) (row : Bar) (ls : LoopState) :
  replay_from seen (before ++ [row]) ls
  = step_bar (seen ++ before ++ [row]) row (replay_from seen before ls).
Proof.
  rewrite replay_app. simpl. now rewrite <- app_assoc.
Qed.

Lemma run_backtest_nonempty (st : Ledger) (ohlcv_data : list Bar) :
  ohlcv_data <> [] ->
  run st ohlcv_data
  = let ls := replay_from [] ohlcv_data (init_loop st) in
    match get_performance_metrics (ls_ledger ls)
            [(sym, last (map close ohlcv_data) 0)] with
    | inl e => inl e
    | inr (st', final_metrics) =>
        inr {| r_metrics := final_metrics;
               r_max_drawdown :=
                 _calculate_max_drawdown (ls_portfolio_values ls);
               r_portfolio_values := ls_portfolio_values ls;
               r_signals := ls_signals ls;
               r_total_commission_paid :=
                 inject_Z (Z.of_nat (List.length (trades st')))
                 * commission_rate;
               r_strategy := st';
               r_commissions := ls_commissions ls |}
    end.
Proof. destruct ohlcv_data; [congruence|reflexivity]. Qed.

Lemma filter_winning_length (ts : list Trade) (current_prices : Dict.t Q) :
  List.length (filter (fun t => _is_winning_trade t current_prices) ts)
  = List.length ts.
Proof. induction ts; simpl; auto. Qed.

(** X16: the final metrics agree with the series: the portfolio value
    reported is the last point of the value series, the total return is its
    relative change from the initial balance, the number of trades is the
    length of the history, and the win rate is 1 as soon as there is a trade
    (every trade counts as won) and 0 otherwise. *)
Theorem final_metrics_agree_with_series (st : Ledger)
    (ohlcv_data : list Bar) (r : BacktestResult) :
  run st ohlcv_data = inr r ->
  let m := r_metrics r in
  m_portfolio_value m = last (r_portfolio_values r) 0
  /\ m_initial_balance m = initial_balance st
  /\ m_total_return m
     = (last (r_portfolio_values r) 0 - initial_balance st)
       / initial_balance st
  /\ m_total_trades m = List.length (trades (r_strategy r))
  /\ m_win_rate m == (if (0 <? m_total_trades m)%nat then 1 else 0).
Proof.
  intros Hrun.
  assert (Hne : ohlcv_data <> []).
  { intros ->. discriminate Hrun. }
  rewrite (run_backtest_nonempty st ohlcv_data Hne) in Hrun.
  destruct (exists_last Hne) as (before & row & ->).
  rewrite replay_last in Hrun. simpl app in Hrun.
  set (ls := replay_from [] before (init_loop st)) in *.
  assert (Hib : initial_balance (ls_ledger ls) = initial_balance st).
  { unfold ls. now rewrite replay_initial_balance. }
  rewrite map_app in Hrun. simpl map in Hrun. rewrite last_last in Hrun.
  cbv zeta in Hrun. unfold bar_step in Hrun.
  pose proof (trade_step_initial_balance S commission_rate sym (ls_ledger ls)
                (generate_signal S (ls_ledger ls) (before ++ [row])) row)
    as Hib1.
  destruct (trade_step S commission_rate sym (ls_ledger ls) _ row)
    as [st1 debited]. cbn [fst] in Hib1.
  pose proof (get_portfolio_value_is_idempotent_aux st1 [(sym, close row)])
    as Hidem.
  pose proof (get_portfolio_value_initial_balance st1 [(sym, close row)])
    as Hib2.
  destruct (get_portfolio_value st1 _) as [st2 v] eqn:E. cbn [fst] in *.
  unfold get_performance_metrics in Hrun. cbn [ls_ledger] in Hrun.
  rewrite Hidem in Hrun.
  destruct (Qeq_bool (initial_balance st2) 0) eqn:Ez; [discriminate|].
  injection Hrun as <-. cbn. rewrite last_last.
  rewrite Hib2, Hib1, Hib. repeat split.
  rewrite filter_winning_length.
  destruct (trades st2) as [|t ts]; [reflexivity|].
  cbn [Nat.ltb Nat.leb List.length]. field.
  intros H. apply (proj1 (inject_Z_injective _ 0)) in H.
  simpl in H. lia.
Qed.

End Run_more.

Lemma run_keeps_positions_positive_witness :
  exists r,
    run_backtest (SMACrossoverStrategy 1 2 (1 # 10)) (1 # 1000) "BTC/USDT"
      (new_ledger 5) (bars_of_closes [2; 1; 2; 10; 6]) = inr r
    /\ ledger_inv (r_strategy r).
Proof.
  eexists. split; [vm_compute; reflexivity|].
  eapply (run_keeps_positions_positive (SMACrossoverStrategy 1 2 (1 # 10))
            (1 # 1000) "BTC/USDT" (new_ledger 5)
            (bars_of_closes [2; 1; 2; 10; 6])).
  - apply ledger_inv_new.
  - vm_compute. reflexivity.
Defined.

Lemma bar_without_trade_only_revalues_witness :
  let S := SMACrossoverStrategy 1 2 (1 # 10) in
  let data := bars_of_closes [100] in
  let row := mkBar 0%Z 100 100 100 100 0 in
  ls_portfolio_values
    (bar_step S (1 # 1000) "BTC/USDT" data row (init_loop (new_ledger 10000)))
  = [snd (get_portfolio_value (new_ledger 10000)
            [("BTC/USDT"%string, 100)])].
Proof.
  intros S data row.
  destruct (bar_without_trade_only_revalues S (1 # 1000) "BTC/USDT" data row
              (init_loop (new_ledger 10000))) as (_ & Hv & _).
  - left. reflexivity.
  - exact Hv.
Defined.

Lemma final_metrics_agree_with_series_witness :
  exists r,
    run_backtest (SMACrossoverStrategy 1 2 (1 # 10)) (1 # 1000) "BTC/USDT"
      (new_ledger 10000) (bars_of_closes [100; 50; 100]) = inr r
    /\ m_portfolio_value (r_metrics r) = last (r_portfolio_values r) 0
    /\ m_total_trades (r_metrics r) = List.length (trades (r_strategy r)).
Proof.
  eexists. split; [vm_compute; reflexivity|].
  pose proof (final_metrics_agree_with_series
                (SMACrossoverStrategy 1 2 (1 # 10)) (1 # 1000) "BTC/USDT"
                (new_ledger 10000) (bars_of_closes [100; 50; 100]) _
                eq_refl) as H.
  cbv zeta in H. destruct H as (H1 & _ & _ & H4 & _).
  split; [exact H1|exact H4].
Defined.

(** ** A series no longer than the long window *)

Section Short_series.

Variables short_window long_window : nat.
Variable position_size_pct commission_rate : Q.
Variable sym : string.
Variable balance : Q.

Local Abbreviation sma :=
  (SMACrossoverStrategy short_window long_window position_size_pct).

Lemma replay_holds (rest seen : list Bar) (vs : list Q) (ss : list string)
    (cs : list Q) :
  (List.length (seen ++ rest) <= long_window)%nat ->
  replay sma commission_rate sym seen rest
    (mkLoopState (new_ledger balance) vs ss cs)
  = mkLoopState (new_ledger balance)
      (vs ++ repeat balance (List.length rest))
      (ss ++ repeat "hold"%string (List.length rest))
      cs.
Proof.
  revert seen vs ss. induction rest as [|row rest IH]; intros seen vs ss Hlen.
  - simpl. now rewrite !app_nil_r.
  - cbn [replay]. unfold bar_step.
    cbn [ls_ledger generate_signal SMACrossoverStrategy].
    rewrite sma_hold_within_window.
    2:{ rewrite length_app in *. simpl in *. lia. }
    cbn. rewrite app_nil_r.
    change (set_positions (new_ledger balance) []) with (new_ledger balance).
    rewrite IH.
    + rewrite <- !app_assoc. reflexivity.
    + rewrite <- app_assoc. exact Hlen.
Qed.

(** X17: a run of the SMA strategy (windows of at least one bar) over a
    series no longer than its long window never trades: every signal is
    ["hold"], every point of the value series is the initial balance, the
    ledger is left as it started, nothing is debited, and the metrics report
    no trade and a zero return. *)
Theorem short_series_never_trades (ohlcv_data : list Bar) :
  (1 <= short_window)%nat ->
  (1 <= long_window)%nat ->
  ohlcv_data <> [] ->
  (List.length ohlcv_data <= long_window)%nat ->
  ~ balance == 0 ->
  exists r,
    run_backtest sma commission_rate sym (new_ledger balance) ohlcv_data
      = inr r
    /\ r_signals r = repeat "hold"%string (List.length ohlcv_data)
    /\ r_portfolio_values r = repeat balance (List.length ohlcv_data)
    /\ r_strategy r = new_ledger balance
    /\ r_commissions r = []
    /\ r_total_commission_paid r == 0
    /\ m_total_trades (r_metrics r) = 0%nat
    /\ m_total_return (r_metrics r) == 0.
Proof.
  intros _ _ Hne Hlen Hb.
  rewrite (run_backtest_nonempty sma commission_rate sym (new_ledger balance)
             ohlcv_data Hne).
  cbv zeta. unfold init_loop. rewrite replay_holds by exact Hlen.
  cbn [ls_ledger ls_portfolio_values ls_signals ls_commissions].
  unfold get_performance_metrics. cbn.
  destruct (Qeq_bool balance 0) eqn:Ez.
  { apply Qeq_bool_iff in Ez. contradiction. }
  eexists. split; [reflexivity|]. cbn.
  do 5 (split; [reflexivity|]). split; [reflexivity|].
  field. exact Hb.
Qed.

End Short_series.

Lemma short_series_never_trades_witness :
  exists r,
    run_backtest (SMACrossoverStrategy 20 50 (1 # 10)) (1 # 1000) "BTC/USDT"
      (new_ledger 10000) (bars_of_closes [100; 300; 50]) = inr r
    /\ r_signals r = ["hold"; "hold"; "hold"]%string
    /\ r_portfolio_values r = [10000; 10000; 10000].
Proof.
  destruct (short_series_never_trades 20 50 (1 # 10) (1 # 1000) "BTC/USDT"
              10000 (bars_of_closes [100; 300; 50]))
    as (r & Hrun & Hs & Hv & _).
  - lia.
  - lia.
  - discriminate.
  - simpl. lia.
  - discriminate.
  - exists r. repeat split; assumption.
Defined.

(** * Further properties of the maximum drawdown *)

Lemma nth_in_prefix {A : Type} (xs : list A) (t : nat) (d : A) :
  (t < List.length xs)%nat -> In (nth t xs d) (firstn (Datatypes.S t) xs).
Proof.
  revert t. induction xs as [|x xs IH]; intros t Ht; simpl in Ht; [lia|].
  destruct t as [|t]; [now left|]. right. apply IH. lia.
Qed.

Lemma in_prefix_nth {A : Type} (xs : list A) (t : nat) (d x : A) :
  In x (firstn (Datatypes.S t) xs) ->
  exists s, (s <= t)%nat /\ (s < List.length xs)%nat /\ nth s xs d = x.
Proof.
  revert t. induction xs as [|y xs IH]; intros t Hin; [destruct Hin|].
  destruct Hin as [->|Hin].
  - exists 0%nat. simpl. repeat split; lia.
  - destruct t as [|t]; [destruct Hin|].
    destruct (IH t Hin) as (s & Hs & Hlen & Hn).
    exists (Datatypes.S s). simpl. repeat split; try lia. exact Hn.
Qed.

Lemma in_prefix_in {A : Type} (xs : list A) (n : nat) (x : A) :
  In x (firstn n xs) -> In x xs.
Proof.
  intros H. rewrite <- (firstn_skipn n xs). apply in_or_app. now left.
Qed.

Lemma running_max_positive (values : list Q) (t : nat) :
  Forall (fun v => 0 < v) values ->
  (t < List.length values)%nat ->
  0 < running_max values t.
Proof.
  intros Hall Ht.
  destruct (running_max_is_prefix_max values t Ht) as [Hin _].
  apply in_prefix_in in Hin. rewrite Forall_forall in Hall. now apply Hall.
Qed.

Lemma drawdown_at_bounds (values : list Q) (t : nat) :
  Forall (fun v => 0 < v) values ->
  (t < List.length values)%nat ->
  - (1) < drawdown_at values t <= 0.
Proof.
  intros Hall Ht.
  pose proof (running_max_positive values t Hall Ht) as HM.
  destruct (running_max_is_prefix_max values t Ht) as [_ Hub].
  pose proof (Hub _ (nth_in_prefix values t 0 Ht)) as Hle.
  assert (Hv : 0 < nth t values 0).
  { rewrite Forall_forall in Hall. apply Hall. now apply nth_In. }
  unfold drawdown_at. split.
  - apply Qlt_shift_div_l; [exact HM|]. lra.
  - apply Qle_shift_div_r; [exact HM|]. lra.
Qed.

(** X18: on a series of positive values the maximum drawdown is a number
    between -1 and 0, bounds included: a drawdown is never a gain, and never
    more than the whole of the peak. *)
Theorem max_drawdown_is_between_minus_one_and_zero (values : list Q) :
  values <> [] ->
  Forall (fun v => 0 < v) values ->
  exists r, _calculate_max_drawdown values = Fin r /\ - (1) <= r <= 0.
Proof.
  intros Hne Hall.
  destruct (max_drawdown_defined values Hne) as (r & Hr & (t & Ht & ->) & _).
  - intros t Ht.
    pose proof (running_max_positive values t Hall Ht). lra.
  - exists (drawdown_at values t). split; [exact Hr|].
    pose proof (drawdown_at_bounds values t Hall Ht). lra.
Qed.

Lemma max_drawdown_is_between_minus_one_and_zero_witness :
  exists r,
    _calculate_max_drawdown [100; 120; 90; 110] = Fin r /\ - (1) <= r <= 0.
Proof.
  apply (max_drawdown_is_between_minus_one_and_zero [100; 120; 90; 110]).
  - discriminate.
  - repeat constructor.
Defined.

(** X19: a positive series that never falls has no drawdown: the result is
    0. *)
Theorem max_drawdown_of_rising_series_is_zero (values : list Q) :
  values <> [] ->
  Forall (fun v => 0 < v) values ->
  (forall i j, (i <= j < List.length values)%nat ->
               nth i values 0 <= nth j values 0) ->
  exists r, _calculate_max_drawdown values = Fin r /\ r == 0.
Proof.
  intros Hne Hall Hmono.
  destruct (max_drawdown_defined values Hne) as (r & Hr & (t & Ht & ->) & _).
  - intros t Ht.
    pose proof (running_max_positive values t Hall Ht). lra.
  - exists (drawdown_at values t). split; [exact Hr|].
    pose proof (running_max_positive values t Hall Ht) as HM.
    destruct (running_max_is_prefix_max values t Ht) as [Hin Hub].
    pose proof (Hub _ (nth_in_prefix values t 0 Ht)) as Hle.
    destruct (in_prefix_nth values t 0 _ Hin) as (s & Hs & Hlen & Hn).
    assert (Hge : running_max values t <= nth t values 0).
    { rewrite <- Hn. apply Hmono. lia. }
    unfold drawdown_at.
    assert (E : nth t values 0 - running_max values t == 0) by lra.
    rewrite E. field. lra.
Qed.

Lemma max_drawdown_of_rising_series_is_zero_witness :
  exists r, _calculate_max_drawdown [100; 100; 130] = Fin r /\ r == 0.
Proof.
  apply (max_drawdown_of_rising_series_is_zero [100; 100; 130]).
  - discriminate.
  - repeat constructor.
  - intros i j [Hij Hj]. simpl in Hj.
    destruct j as [|[|[|j]]]; try lia;
      destruct i as [|[|[|i]]]; try lia; vm_compute; discriminate.
Defined.

(** * Further properties of the Sharpe ratio *)

Module SharpeMore.

Import Sharpe.
Local Open Scope R_scope.

Lemma std_defined (xs : list R) :
  (2 <= List.length xs)%nat ->
  std xs
  = Some (sqrt (sum_R (map (fun x => (x - sum_R xs / INR (List.length xs))
                                    * (x - sum_R xs / INR (List.length xs)))
                         xs)
                / (INR (List.length xs) - 1))).
Proof.
  destruct xs as [|a [|b l]]; simpl List.length; intros H; try lia.
  reflexivity.
Qed.

Lemma std_some_length (xs : list R) (s : R) :
  std xs = Some s -> (2 <= List.length xs)%nat.
Proof.
  destruct xs as [|a [|b l]]; simpl; try discriminate. intros _. lia.
Qed.

Lemma sum_R_map_sub (k : R) (xs : list R) :
  sum_R (map (fun r => r - k) xs) = sum_R xs - INR (List.length xs) * k.
Proof.
  induction xs as [|x xs IH].
  - simpl. ring.
  - change (List.length (x :: xs)) with (Datatypes.S (List.length xs)).
    rewrite S_INR. simpl. rewrite IH. ring.
Qed.

(** X21: when the standard deviation is defined and not 0, the Sharpe
    ratio is a number whose sign is that of the mean return in excess of the
    daily risk-free rate 0.02 / 252: positive above it, zero at it, negative
    below. *)
Theorem sharpe_ratio_has_the_sign_of_excess_return (returns : list R)
    (s : R) :
  std returns = Some s ->
  s <> 0 ->
  exists v,
    sharpe_ratio returns = Some v
    /\ (0 < v <-> 2 / 100 / 252 < sum_R returns / INR (List.length returns))
    /\ (v = 0 <-> sum_R returns / INR (List.length returns) = 2 / 100 / 252)
    /\ (v < 0 <-> sum_R returns / INR (List.length returns) < 2 / 100 / 252).
Proof.
  intros Hs Hnz.
  pose proof (std_some_length returns s Hs) as Hlen.
  assert (Hne : returns <> []).
  { intros ->. simpl in Hlen. lia. }
  assert (Hpos : 0 < s).
  { rewrite (std_defined returns Hlen) in Hs. injection Hs as <-.
    pose proof (sqrt_pos
      (sum_R (map (fun x => (x - sum_R returns / INR (List.length returns))
                            * (x - sum_R returns
                                   / INR (List.length returns))) returns)
       / (INR (List.length returns) - 1))). lra. }
  assert (Hn : 0 < INR (List.length returns)).
  { apply lt_0_INR. lia. }
  assert (Hq : 0 < sqrt 252).
  { apply sqrt_lt_R0. lra. }
  unfold sharpe_ratio, _calculate_sharpe_ratio.
  rewrite (SharpeFacts.length_eqb_0 returns Hne), Hs.
  destruct (Req_dec_T s 0); [contradiction|].
  rewrite (SharpeFacts.mean_map_nonempty _ returns Hne), sum_R_map_sub.
  eexists. split; [reflexivity|].
  set (mu := sum_R returns / INR (List.length returns)).
  replace ((sum_R returns - INR (List.length returns) * (2 / 100 / 252))
           / INR (List.length returns) / s * sqrt 252)
    with ((mu - 2 / 100 / 252) * (/ s * sqrt 252))
    by (unfold mu; field; split; lra).
  assert (Hf : 0 < / s * sqrt 252).
  { apply Rmult_lt_0_compat; [now apply Rinv_0_lt_compat|exact Hq]. }
  repeat split; intros H.
  - apply Rnot_le_lt. intros Hle.
    assert (0 <= (2 / 100 / 252 - mu) * (/ s * sqrt 252))
      by (apply Rmult_le_pos; lra).
    lra.
  - apply Rmult_lt_0_compat; lra.
  - apply Rmult_integral in H. destruct H; lra.
  - replace (mu - 2 / 100 / 252) with 0 by lra. ring.
  - apply Rnot_le_lt. intros Hle.
    assert (0 <= (mu - 2 / 100 / 252) * (/ s * sqrt 252))
      by (apply Rmult_le_pos; lra).
    lra.
  - assert (0 < (2 / 100 / 252 - mu) * (/ s * sqrt 252))
      by (apply Rmult_lt_0_compat; lra).
    lra.
Qed.

Lemma sharpe_ratio_has_the_sign_of_excess_return_witness :
  exists s v,
    std [0; 1] = Some s
    /\ sharpe_ratio [0; 1] = Some v
    /\ 0 < v.
Proof.
  assert (Hs : std [0; 1] = Some (sqrt (1 / 2))).
  { unfold std. simpl. f_equal. f_equal. field. }
  assert (Hnz : sqrt (1 / 2) <> 0).
  { pose proof (sqrt_lt_R0 (1 / 2)). lra. }
  destruct (sharpe_ratio_has_the_sign_of_excess_return [0; 1] _ Hs Hnz)
    as (v & Hv & Hsign & _).
  exists (sqrt (1 / 2)), v. split; [exact Hs|]. split; [exact Hv|].
  apply Hsign. simpl. lra.
Defined.

End SharpeMore.

(** * Historical data *)

Lemma seen_spec (t : datetime) (seen : list datetime) :
  existsb (Z.eqb t) seen = true <-> In t seen.
Proof.
  rewrite existsb_exists. split.
  - intros (x & Hx & E). apply Z.eqb_eq in E. now subst.
  - intros H. exists t. split; [exact H|apply Z.eqb_refl].
Qed.

Lemma drop_duplicated_in (rows : list Bar) (seen : list datetime) (r : Bar) :
  In r (drop_duplicated seen rows) ->
  ~ In (timestamp r) seen
  /\ exists before after,
       rows = before ++ r :: after
       /\ ~ In (timestamp r) (map timestamp before).
Proof.
  revert seen. induction rows as [|r0 rows IH]; intros seen; simpl.
  - intros [].
  - destruct (existsb (Z.eqb (timestamp r0)) seen) eqn:E.
    + apply seen_spec in E. intros Hin.
      destruct (IH seen Hin) as (Hs & before & after & -> & Hb).
      split; [exact Hs|]. exists (r0 :: before), after.
      split; [reflexivity|]. simpl. intros [H|H]; [|tauto]. congruence.
    + assert (Hn : ~ In (timestamp r0) seen).
      { intros H. apply seen_spec in H. congruence. }
      intros [<-|Hin].
      * split; [exact Hn|]. exists [], rows. split; [reflexivity|]. tauto.
      * destruct (IH (timestamp r0 :: seen) Hin)
          as (Hs & before & after & -> & Hb).
        simpl in Hs. split; [tauto|]. exists (r0 :: before), after.
        split; [reflexivity|]. simpl. tauto.
Qed.

Lemma drop_duplicated_keeps_first (before after : list Bar)
    (seen : list datetime) (r : Bar) :
  ~ In (timestamp r) seen ->
  ~ In (timestamp r) (map timestamp before) ->
  In r (drop_duplicated seen (before ++ r :: after)).
Proof.
  revert seen. induction before as [|r0 before IH]; intros seen Hs Hb; simpl.
  - destruct (existsb (Z.eqb (timestamp r)) seen) eqn:E.
    + apply seen_spec in E. contradiction.
    + now left.
  - simpl in Hb.
    destruct (existsb (Z.eqb (timestamp r0)) seen).
    + apply IH; tauto.
    + right. apply IH; [|tauto]. simpl. tauto.
Qed.

Lemma drop_duplicated_NoDup (rows : list Bar) (seen : list datetime) :
  NoDup (map timestamp (drop_duplicated seen rows)).
Proof.
  revert seen. induction rows as [|r0 rows IH]; intros seen; simpl.
  - constructor.
  - destruct (existsb (Z.eqb (timestamp r0)) seen); [apply IH|].
    simpl. constructor; [|apply IH].
    intros Hin. apply in_map_iff in Hin. destruct Hin as (r & E & Hin).
    apply drop_duplicated_in in Hin. destruct Hin as [Hs _].
    apply Hs. rewrite E. now left.
Qed.

Lemma insert_row_perm (row : Bar) (sorted : list Bar) :
  Permutation (insert_row row sorted) (row :: sorted).
Proof.
  induction sorted as [|x xs IH]; simpl.
  - reflexivity.
  - destruct (timestamp row <=? timestamp x)%Z; [reflexivity|].
    rewrite IH. apply perm_swap.
Qed.

Lemma sort_index_perm (rows : list Bar) : Permutation (sort_index rows) rows.
Proof.
  induction rows as [|r rows IH]; simpl; [reflexivity|].
  rewrite insert_row_perm. now constructor.
Qed.

Lemma insert_row_sorted (row : Bar) (sorted : list Bar) :
  StronglySorted not_later sorted ->
  StronglySorted not_later (insert_row row sorted).
Proof.
  induction 1 as [|x xs Hs IH Hx]; simpl.
  - repeat constructor.
  - destruct (timestamp row <=? timestamp x)%Z eqn:E.
    + apply Z.leb_le in E. constructor; [now constructor|].
      constructor; [exact E|].
      eapply Forall_impl; [|exact Hx]. unfold not_later. intros; lia.
    + apply Z.leb_gt in E. constructor; [exact IH|].
      rewrite insert_row_perm.
      constructor; [unfold not_later; lia|exact Hx].
Qed.

Lemma sort_index_sorted (rows : list Bar) :
  StronglySorted not_later (sort_index rows).
Proof.
  induction rows as [|r rows IH]; simpl; [constructor|].
  now apply insert_row_sorted.
Qed.

Lemma sorted_distinct_is_strict (rows : list Bar) :
  StronglySorted not_later rows ->
  NoDup (map timestamp rows) ->
  StronglySorted earlier rows.
Proof.
  induction 1 as [|x xs Hs IH Hx]; simpl; intros Hnd; [constructor|].
  inversion Hnd as [|? ? Hnotin Hnd']; subst.
  constructor; [now apply IH|].
  rewrite Forall_forall in *. intros y Hy.
  specialize (Hx y Hy). unfold not_later, earlier in *.
  assert (timestamp x <> timestamp y).
  { intros E. apply Hnotin. rewrite E. now apply in_map. }
  lia.
Qed.

Lemma filter_sorted {A : Type} (R : A -> A -> Prop) (f : A -> bool)
    (xs : list A) :
  StronglySorted R xs -> StronglySorted R (filter f xs).
Proof.
  induction 1 as [|x xs Hs IH Hx]; simpl; [constructor|].
  destruct (f x); [|exact IH].
  constructor; [exact IH|].
  rewrite Forall_forall in *. intros y Hy.
  apply filter_In in Hy. now apply Hx.
Qed.

(** X22: the combined history is strictly ascending in time: every row
    is earlier than every row after it, so no timestamp occurs twice. *)
Theorem combined_history_is_strictly_ascending
    (all_data : list (list Bar)) (start_date end_date : datetime) :
  StronglySorted earlier
    (combine_historical_data all_data start_date end_date).
Proof.
  unfold combine_historical_data.
  destruct all_data as [|frame frames]; [constructor|].
  apply filter_sorted. apply sorted_distinct_is_strict.
  - apply sort_index_sorted.
  - eapply Permutation_NoDup.
    + symmetry. apply Permutation_map. apply sort_index_perm.
    + apply drop_duplicated_NoDup.
Qed.

(** X23: a row is in the combined history exactly when its timestamp lies
    in the requested range, bounds included, and it is the first row with
    that timestamp in the concatenation of the frames: of two rows with one
    timestamp the earlier fetched wins, and nothing else is lost or added. *)
Theorem combined_history_keeps_first_rows_in_range
    (all_data : list (list Bar)) (start_date end_date : datetime) (r : Bar) :
  In r (combine_historical_data all_data start_date end_date)
  <-> (start_date <= timestamp r <= end_date)%Z
      /\ first_with_timestamp (List.concat all_data) r.
Proof.
  unfold combine_historical_data, first_with_timestamp.
  destruct all_data as [|frame frames].
  - simpl. split; [intros []|].
    intros (_ & before & after & E & _). destruct before; discriminate.
  - set (rows := List.concat (frame :: frames)).
    rewrite filter_In. unfold in_date_range.
    rewrite andb_true_iff, !Z.leb_le. split.
    + intros [Hin Hr]. split; [exact Hr|].
      apply (Permutation_in _ (sort_index_perm _)) in Hin.
      apply drop_duplicated_in in Hin. tauto.
    + intros (Hr & before & after & E & Hb). split; [|exact Hr].
      apply (Permutation_in _ (Permutation_sym (sort_index_perm _))).
      rewrite E. apply drop_duplicated_keeps_first; [tauto|exact Hb].
Qed.

Lemma first_occurrence_exists (rows : list Bar) (r : Bar) :
  In r rows ->
  exists r', first_with_timestamp rows r' /\ timestamp r' = timestamp r.
Proof.
  induction rows as [|r0 rows IH]; [intros []|].
  intros Hin. destruct (Z.eq_dec (timestamp r0) (timestamp r)) as [E|Hne].
  - exists r0. split; [|exact E]. exists [], rows. split; [reflexivity|].
    simpl. tauto.
  - destruct Hin as [->|Hin]; [congruence|].
    destruct (IH Hin) as (r' & (before & after & -> & Hb) & E).
    exists r'. split; [|exact E]. exists (r0 :: before), after.
    split; [reflexivity|]. simpl. intros [H|H]; [congruence|tauto].
Qed.

Lemma get_performance_metrics_error (st : Ledger) (current_prices : Dict.t Q)
    (e : Exception) :
  get_performance_metrics st current_prices = inl e -> e = ZeroDivisionError.
Proof.
  unfold get_performance_metrics.
  destruct (get_portfolio_value st current_prices) as [st' v].
  destruct (Qeq_bool (initial_balance st') 0); [|discriminate].
  now intros [= <-].
Qed.

(** X24: fetched history and engine together: the run stops with the
    [ValueError] of the empty data frame exactly when no fetched row has its
    timestamp in the requested range. *)
Theorem run_on_history_fails_iff_nothing_in_range (S : Strategy)
    (commission_rate : Q) (sym : string) (st : Ledger)
    (all_data : list (list Bar)) (start_date end_date : datetime) :
  run_backtest S commission_rate sym st
    (combine_historical_data all_data start_date end_date) = inl ValueError
  <-> forall r, In r (List.concat all_data) ->
                ~ (start_date <= timestamp r <= end_date)%Z.
Proof.
  split.
  - intros Hrun r Hin Hr.
    assert (Hempty : combine_historical_data all_data start_date end_date
                     = []).
    { destruct (combine_historical_data all_data start_date end_date)
        as [|row rest] eqn:E; [reflexivity|].
      unfold run_backtest in Hrun.
      destruct (get_performance_metrics _ _) as [e|[st' m]] eqn:Em;
        [|discriminate].
      apply get_performance_metrics_error in Em. congruence. }
    destruct (first_occurrence_exists _ r Hin)
      as (r' & (before & after & E & Hb) & Et).
    assert (Hin' : In r' (combine_historical_data all_data start_date
                            end_date)).
    { unfold combine_historical_data.
      destruct all_data as [|frame frames];
        [destruct before; discriminate|].
      apply filter_In. split.
      - apply (Permutation_in _ (Permutation_sym (sort_index_perm _))).
        rewrite E. apply drop_duplicated_keeps_first; [tauto|exact Hb].
      - unfold in_date_range. rewrite Et.
        apply andb_true_iff. rewrite !Z.leb_le. exact Hr. }
    rewrite Hempty in Hin'. destruct Hin'.
  - intros Hnone.
    destruct (combine_historical_data all_data start_date end_date)
      as [|row rest] eqn:E; [reflexivity|].
    exfalso.
    assert (Hin : In row (combine_historical_data all_data start_date
                            end_date)).
    { rewrite E. now left. }
    unfold combine_historical_data in Hin.
    destruct all_data as [|frame frames]; [destruct Hin|].
    apply filter_In in Hin. destruct Hin as [Hin Hr].
    apply (Permutation_in _ (sort_index_perm _)) in Hin.
    apply drop_duplicated_in in Hin.
    destruct Hin as (_ & before & after & Ec & _).
    apply (Hnone row).
    + rewrite Ec. apply in_or_app. right. now left.
    + unfold in_date_range in Hr. apply andb_true_iff in Hr.
      rewrite !Z.leb_le in Hr. exact Hr.
Qed.

(** * Indicators and rolling means *)

(** X25: an indicator that was added is returned by [get_indicator], also
    when the name was already in use (the new series replaces the old one);
    the other names keep their series, and a name never added has none. *)
Theorem indicator_is_returned_after_add (indicators : Dict.t Series)
    (name : string) (values : Series) :
  get_indicator (add_indicator indicators name values) name = Some values
  /\ (forall other, other <> name ->
        get_indicator (add_indicator indicators name values) other
        = get_indicator indicators other)
  /\ (get_indicator indicators name <> None ->
      Dict.keys (add_indicator indicators name values)
      = Dict.keys indicators)
  /\ get_indicator [] name = None.
Proof.
  unfold get_indicator, add_indicator. repeat split.
  - apply DictFacts.get_set_eq.
  - intros other Hne. apply DictFacts.get_set_ne. congruence.
  - intros Hsome. apply DictFacts.keys_set_present.
    destruct (in_dec string_dec name (Dict.keys indicators)) as [Hin|Hout];
      [exact Hin|].
    apply DictFacts.get_None_keys in Hout. contradiction.
Qed.

(** X26: with windows of at least one bar, after [generate_signal] has
    seen at least [long_window] bars, both
    averages are stored under their names, each with one entry per bar; with
    fewer bars the indicators are left alone. *)
Theorem sma_stores_both_averages (short_window long_window : nat)
    (indicators : Dict.t Series) (ohlcv_data : list Bar) :
  let stored :=
    sma_store_indicators short_window long_window indicators ohlcv_data in
  (1 <= short_window)%nat ->
  (1 <= long_window)%nat ->
  ((List.length ohlcv_data < long_window)%nat -> stored = indicators)
  /\ ((long_window <= List.length ohlcv_data)%nat ->
      exists short_sma long_sma,
        get_indicator stored "short_sma" = Some short_sma
        /\ get_indicator stored "long_sma" = Some long_sma
        /\ List.length short_sma = List.length ohlcv_data
        /\ List.length long_sma = List.length ohlcv_data
        /\ (forall i, nth_error short_sma i
                      = if (i <? List.length ohlcv_data)%nat
                        then Some (rolling_mean short_window
                                     (map close ohlcv_data) i)
                        else None)
        /\ (forall i, nth_error long_sma i
                      = if (i <? List.length ohlcv_data)%nat
                        then Some (rolling_mean long_window
                                     (map close ohlcv_data) i)
                        else None)).
Proof.
  intros stored _ _. subst stored. unfold sma_store_indicators. split.
  - intros H. apply Nat.ltb_lt in H. now rewrite H.
  - intros H. apply Nat.ltb_ge in H. rewrite H.
    unfold get_indicator, add_indicator. do 2 eexists.
    split.
    { rewrite DictFacts.get_set_ne by discriminate.
      apply DictFacts.get_set_eq. }
    split; [apply DictFacts.get_set_eq|].
    unfold rolling_mean_series.
    repeat rewrite ?length_map, ?length_seq.
    do 2 (split; [reflexivity|]).
    split; intros i; rewrite nth_error_map, nth_error_seq;
      rewrite ?length_map;
      destruct (i <? List.length ohlcv_data)%nat; reflexivity.
Qed.

Lemma sma_stores_both_averages_witness :
  exists short_sma long_sma,
    get_indicator (sma_store_indicators 1 2 [] (bars_of_closes [100; 50]))
      "short_sma" = Some short_sma
    /\ get_indicator (sma_store_indicators 1 2 [] (bars_of_closes [100; 50]))
         "long_sma" = Some long_sma
    /\ List.length short_sma = 2%nat
    /\ List.length long_sma = 2%nat.
Proof.
  destruct (sma_stores_both_averages 1 2 [] (bars_of_closes [100; 50]))
    as [_ H]; try lia.
  destruct H as (s & l & Hs & Hl & Ls & Ll & _); [simpl; lia|].
  exists s, l. repeat split; assumption.
Defined.

Lemma sum_Q_bounds (xs : list Q) (lo hi : Q) :
  Forall (fun x => lo <= x <= hi) xs ->
  inject_Z (Z.of_nat (List.length xs)) * lo <= sum_Q xs
  /\ sum_Q xs <= inject_Z (Z.of_nat (List.length xs)) * hi.
Proof.
  induction 1 as [|x xs Hx Hxs IH].
  - change (inject_Z (Z.of_nat (List.length (@nil Q)))) with 0.
    rewrite sum_Q_nil. split; lra.
  - cbv beta in Hx. destruct Hx as [Hlo Hhi]. destruct IH as [IHlo IHhi].
    change (List.length (x :: xs)) with (Datatypes.S (List.length xs)).
    rewrite Nat2Z.inj_succ. unfold Z.succ. rewrite inject_Z_plus.
    rewrite sum_Q_cons.
    change (inject_Z 1) with 1. split; lra.
Qed.

Lemma rolling_mean_window (w : nat) (xs : list Q) (i : nat) (m : Q) :
  rolling_mean w xs i = Some m ->
  (1 <= w <= i + 1)%nat /\ (i < List.length xs)%nat
  /\ List.length (firstn w (skipn (i + 1 - w) xs)) = w
  /\ m = sum_Q (firstn w (skipn (i + 1 - w) xs)) / inject_Z (Z.of_nat w).
Proof.
  unfold rolling_mean.
  destruct (w =? 0)%nat eqn:E0; [discriminate|].
  destruct (i + 1 <? w)%nat eqn:E1; [discriminate|].
  destruct (List.length xs <=? i)%nat eqn:E2; [discriminate|].
  apply Nat.eqb_neq in E0. apply Nat.ltb_ge in E1. apply Nat.leb_gt in E2.
  intros [= <-]. repeat split; try lia.
  rewrite length_firstn, length_skipn. lia.
Qed.

(** X27: a rolling mean over a window of [w >= 1] bars is defined exactly
    from the entry that completes the first window (index [w - 1]) up to
    the end of the series, and where it is defined it lies between any
    bounds that hold for the closes. *)
Theorem rolling_mean_is_defined_and_bounded (w : nat) (xs : list Q)
    (i : nat) :
  (1 <= w)%nat ->
  (rolling_mean w xs i <> None
   <-> (w <= i + 1)%nat /\ (i < List.length xs)%nat)
  /\ forall lo hi m,
       Forall (fun x => lo <= x <= hi) xs ->
       rolling_mean w xs i = Some m ->
       lo <= m <= hi.
Proof.
  intros Hw1. split.
  - split.
    + destruct (rolling_mean w xs i) as [m|] eqn:E; [|congruence].
      intros _. apply rolling_mean_window in E. split; lia.
    + intros [Hi Hlen]. unfold rolling_mean.
      destruct (w =? 0)%nat eqn:E0; [apply Nat.eqb_eq in E0; lia|].
      destruct (i + 1 <? w)%nat eqn:E1; [apply Nat.ltb_lt in E1; lia|].
      destruct (List.length xs <=? i)%nat eqn:E2;
        [apply Nat.leb_le in E2; lia|].
      discriminate.
  - intros lo hi m Hall Hm.
    destruct (rolling_mean_window w xs i m Hm) as (Hw & Hi & Hlen & ->).
    pose proof (sum_Q_bounds _ lo hi
                  (Forall_window _ xs (i + 1 - w) w Hall)) as [Hlo Hhi].
    rewrite Hlen in Hlo, Hhi.
    assert (Hpos : 0 < inject_Z (Z.of_nat w)).
    { change 0 with (inject_Z 0). rewrite <- Zlt_Qlt. lia. }
    split.
    + apply Qle_shift_div_l; [exact Hpos|]. lra.
    + apply Qle_shift_div_r; [exact Hpos|]. lra.
Qed.

Lemma rolling_mean_is_defined_and_bounded_witness :
  exists m, rolling_mean 2 [100; 50; 120] 1 = Some m /\ 50 <= m <= 120.
Proof.
  eexists. split; [reflexivity|].
  destruct (rolling_mean_is_defined_and_bounded 2 [100; 50; 120] 1)
    as [_ H]; [lia|].
  apply (H 50 120).
  - repeat constructor; discriminate.
  - reflexivity.
Defined.
